(** * The Ukrainian dative-case name engine of [make_medals.py]

    A shallow embedding of the declension heuristics of [make_medals.py]
    ([split_fullname], [guess_gender_from_patronymic], [dative_first_name],
    [dative_surname], [dative_patronymic], [to_dative_fullname]) together
    with the Python string primitives they call, and the properties of the
    engine checked against the specification. *)

From Stdlib Require Import String Ascii List Arith NArith Bool Lia.
From Stdlib Require DecimalNat.
From Stdlib Require Import Permutation Sorted.
Import ListNotations.
Local Open Scope N_scope.

(** ** Python strings

    A Python [str] is a sequence of Unicode code points. *)

Definition char := N.
Definition str := list char.

(** String literals of this file are written in UTF-8; [u] decodes them
    into code points, so that [u "Гуров"] has five characters. *)
Fixpoint utf8_decode (bs : list N) : str :=
  match bs with
  | [] => []
  | b0 :: r0 =>
    if b0 <? 0x80 then b0 :: utf8_decode r0
    else
      match r0 with
      | [] => []
      | b1 :: r1 =>
        if b0 <? 0xE0 then ((b0 - 0xC0) * 0x40 + (b1 - 0x80)) :: utf8_decode r1
        else
          match r1 with
          | [] => []
          | b2 :: r2 =>
            if b0 <? 0xF0
            then ((b0 - 0xE0) * 0x1000 + (b1 - 0x80) * 0x40 + (b2 - 0x80))
                   :: utf8_decode r2
            else
              match r2 with
              | [] => []
              | b3 :: r3 =>
                ((b0 - 0xF0) * 0x40000 + (b1 - 0x80) * 0x1000
                 + (b2 - 0x80) * 0x40 + (b3 - 0x80)) :: utf8_decode r3
              end
          end
      end
  end.

Definition u (s : string) : str :=
  utf8_decode (map N_of_ascii (list_ascii_of_string s)).

Fixpoint str_eqb (a b : str) : bool :=
  match a, b with
  | [], [] => true
  | x :: a', y :: b' => (x =? y) && str_eqb a' b'
  | _, _ => false
  end.

(** ** Exceptions *)

Inductive exn : Type := IndexError.

Inductive result (A : Type) : Type :=
| Ok (a : A)
| Raise (e : exn).
Arguments Ok {A} a.
Arguments Raise {A} e.

Definition bind {A B : Type} (m : result A) (k : A -> result B) : result B :=
  match m with
  | Ok a => k a
  | Raise e => Raise e
  end.

Notation "x <- m ;; k" := (bind m (fun x => k))
  (at level 61, m at next level, right associativity).
Notation "' p <- m ;; k" := (bind m (fun x => match x with p => k end))
  (at level 61, p pattern, m at next level, right associativity).

(** ** String primitives that do not depend on case *)

(** [not s] and [if s:] on a string. *)
Definition py_not (s : str) : bool :=
  match s with [] => true | _ :: _ => false end.

(** Truth value of an [Optional[str]]: [None] and [""] are false. *)
Definition truthy (o : option str) : bool :=
  match o with
  | Some (_ :: _) => true
  | _ => false
  end.

(** [s[-1]]: the last character, [IndexError] on the empty string. *)
Fixpoint last_item (s : str) : result char :=
  match s with
  | [] => Raise IndexError
  | [c] => Ok c
  | _ :: s' => last_item s'
  end.

(** [s[:-1]]: everything but the last character; the empty string stays
    empty. *)
Definition drop_last (s : str) : str := removelast s.

(** [l[i]] on a list, [IndexError] out of range. *)
Definition list_item {A : Type} (l : list A) (i : nat) : result A :=
  match nth_error l i with
  | Some x => Ok x
  | None => Raise IndexError
  end.

(** [s.endswith(suf)]. *)
Definition endswith (s suf : str) : bool :=
  let n := length s in
  let m := length suf in
  if Nat.leb m n then str_eqb (skipn (n - m) s) suf else false.

(** [Py_UNICODE_ISSPACE], the whitespace of [str.strip] and [str.split]. *)
Definition isspace (c : char) : bool :=
  ((0x09 <=? c) && (c <=? 0x0D))
  || ((0x1C <=? c) && (c <=? 0x20))
  || (c =? 0x85) || (c =? 0xA0) || (c =? 0x1680)
  || ((0x2000 <=? c) && (c <=? 0x200A))
  || (c =? 0x2028) || (c =? 0x2029) || (c =? 0x202F)
  || (c =? 0x205F) || (c =? 0x3000).

Fixpoint lstrip (s : str) : str :=
  match s with
  | [] => []
  | c :: s' => if isspace c then lstrip s' else s
  end.

Definition rstrip (s : str) : str := rev (lstrip (rev s)).

(** [s.strip()]. *)
Definition strip (s : str) : str := rstrip (lstrip s).

(** [s.split()] with no separator: the maximal runs of non-whitespace
    characters.  [cur] holds the run being read, last character first. *)
Fixpoint split_from (cur : str) (s : str) : list str :=
  match s with
  | [] => match cur with [] => [] | _ :: _ => [rev cur] end
  | c :: s' =>
    if isspace c
    then match cur with
         | [] => split_from [] s'
         | _ :: _ => rev cur :: split_from [] s'
         end
    else split_from (c :: cur) s'
  end.

Definition split (s : str) : list str := split_from [] s.

(** [sep.join(l)]. *)
Fixpoint join (sep : str) (l : list str) : str :=
  match l with
  | [] => []
  | [x] => x
  | x :: l' => x ++ sep ++ join sep l'
  end.

(** ** Case mappings

    Inside Basic Latin, the Cyrillic block up to U+045F and the pair
    U+0490/U+0491 (together: every letter of the Ukrainian alphabet) the
    case mappings are simple and written out here.  Everywhere else they are
    those of the interpreter's Unicode database, kept abstract: *)

Record ucd : Type := {
  (** [_PyUnicode_ToLowerFull]: one to three characters *)
  ToLowerFull : char -> char * list char;
  (** [_PyUnicode_ToUpperFull] *)
  ToUpperFull : char -> char * list char;
  (** [_PyUnicode_ToTitleFull] *)
  ToTitleFull : char -> char * list char;
  (** [_PyUnicode_IsLowercase] *)
  IsLowercase : char -> bool;
  (** [_PyUnicode_IsCased] *)
  IsCased : char -> bool;
  (** [_PyUnicode_IsCaseIgnorable] *)
  IsCaseIgnorable : char -> bool
}.

Definition in_written_blocks (c : char) : bool :=
  (c <? 0x80) || ((0x400 <=? c) && (c <? 0x460))
  || (c =? 0x490) || (c =? 0x491).

Definition block_is_upper (c : char) : bool :=
  ((0x41 <=? c) && (c <=? 0x5A)) || ((0x400 <=? c) && (c <? 0x430))
  || (c =? 0x490).

Definition block_is_lower (c : char) : bool :=
  ((0x61 <=? c) && (c <=? 0x7A)) || ((0x430 <=? c) && (c <? 0x460))
  || (c =? 0x491).

Definition block_lower (c : char) : char :=
  if (0x41 <=? c) && (c <=? 0x5A) then c + 0x20
  else if (0x400 <=? c) && (c <? 0x410) then c + 0x50
  else if (0x410 <=? c) && (c <? 0x430) then c + 0x20
  else if c =? 0x490 then 0x491
  else c.

Definition block_upper (c : char) : char :=
  if (0x61 <=? c) && (c <=? 0x7A) then c - 0x20
  else if (0x430 <=? c) && (c <? 0x450) then c - 0x20
  else if (0x450 <=? c) && (c <? 0x460) then c - 0x50
  else if c =? 0x491 then 0x490
  else c.

(** A database in which nothing outside the written blocks is cased.  The
    names run through the engine below lie inside the blocks, where the
    choice of database does not matter. *)
Definition ucd_plain : ucd :=
  {| ToLowerFull := fun c => (c, []);
     ToUpperFull := fun c => (c, []);
     ToTitleFull := fun c => (c, []);
     IsLowercase := fun _ => false;
     IsCased := fun _ => false;
     IsCaseIgnorable := fun _ => false |}.

Section Case.

Variable U : ucd.

Definition tolower_full (c : char) : str :=
  if in_written_blocks c then [block_lower c]
  else let (a, l) := ToLowerFull U c in a :: l.

Definition toupper_full (c : char) : str :=
  if in_written_blocks c then [block_upper c]
  else let (a, l) := ToUpperFull U c in a :: l.

Definition totitle_full (c : char) : str :=
  if in_written_blocks c then [block_upper c]
  else let (a, l) := ToTitleFull U c in a :: l.

(** [c.islower()] for a one-character string. *)
Definition islower (c : char) : bool :=
  if in_written_blocks c then block_is_lower c else IsLowercase U c.

Fixpoint skip_case_ignorable (s : str) : str :=
  match s with
  | [] => []
  | c :: s' => if IsCaseIgnorable U c then skip_case_ignorable s' else s
  end.

(** [handle_capital_sigma]: U+03A3 lowers to the final sigma U+03C2 when
    it ends a word.  [before] is the text to the left, nearest character
    first. *)
Definition handle_capital_sigma (before after : str) : char :=
  let final_sigma :=
    match skip_case_ignorable before with
    | [] => false
    | c :: _ => IsCased U c
    end in
  let final_sigma :=
    if final_sigma
    then match skip_case_ignorable after with
         | [] => true
         | c :: _ => negb (IsCased U c)
         end
    else false in
  if final_sigma then 0x3C2 else 0x3C3.

Definition lower_ucs4 (before : str) (c : char) (after : str) : str :=
  if c =? 0x3A3 then [handle_capital_sigma before after]
  else tolower_full c.

Fixpoint do_lower (before : str) (s : str) : str :=
  match s with
  | [] => []
  | c :: after => lower_ucs4 before c after ++ do_lower (c :: before) after
  end.

(** [s.lower()]. *)
Definition lower (s : str) : str := do_lower [] s.

(** [s.upper()]. *)
Definition upper (s : str) : str := flat_map toupper_full s.

(** [s.capitalize()]: the first character in title case, the rest in
    lower case. *)
Definition capitalize (s : str) : str :=
  match s with
  | [] => []
  | c :: rest => totitle_full c ++ do_lower [c] rest
  end.

End Case.

(** ** The engine *)

(** What [print(out, s, n, p)] is given: one record per line written to
    standard output. *)
Record printed : Type := mk_printed {
  printed_out : list str;
  printed_s : option str;
  printed_n : option str;
  printed_p : option str
}.

Definition stdout := list printed.

Definition VOWELS : list char := u "аеєиіїоуюя".

Definition _endswith_any (s : str) (suffixes : list str) : option str :=
  find (endswith s) suffixes.

Definition split_fullname (fullname : str)
  : result (option str * option str * option str) :=
  let parts := filter (fun p => negb (py_not p)) (split (strip fullname)) in
  if match parts with [] => true | _ :: _ => false end
  then Ok (None, None, None)
  else if Nat.eqb (length parts) 1
  then p0 <- list_item parts 0 ;; Ok (None, Some p0, None)
  else if Nat.eqb (length parts) 2
  then p0 <- list_item parts 0 ;;
       p1 <- list_item parts 1 ;;
       Ok (Some p0, Some p1, None)
  else p0 <- list_item parts 0 ;;
       p1 <- list_item parts 1 ;;
       p2 <- list_item parts 2 ;;
       Ok (Some p0, Some p1, Some p2).

Section Engine.

Variable U : ucd.

Definition _is_vowel (ch : char) : bool :=
  existsb (fun v => str_eqb (lower U [ch]) [v]) VOWELS.

Definition dative_first_name (name : str) : result str :=
  let n := strip name in
  let low := lower U n in
  if py_not n then Ok n
  else if endswith low (u "а")
  then c <- last_item n ;;
       Ok (drop_last n ++ (if islower U c then u "і" else u "І"))
  else if endswith low (u "я")
  then c <- last_item n ;;
       Ok (drop_last n ++ (if islower U c then u "ї" else u "Ї"))
  else if endswith low (u "й")
  then c <- last_item n ;;
       Ok (drop_last n ++ (if islower U c then u "ю" else u "Ю"))
  else if endswith low (u "о")
  then let base := drop_last n in
       let add := u "ові" in
       c <- last_item n ;;
       Ok (base ++ (if islower U c then add else capitalize U add))
  else
    l <- last_item low ;;
    if negb (_is_vowel l) || endswith low (u "ь")
    then let add := u "ові" in
         c <- last_item n ;;
         Ok (n ++ (if islower U c then add else capitalize U add))
    else Ok n.

Definition dative_patronymic (p : str) (gender : option str) : result str :=
  if py_not p then Ok []
  else
    let low := lower U p in
    let male_suf := [u "ович"; u "йович"; u "евич"; u "льович"; u "євич"] in
    let fem_suf := [u "івна"; u "ївна"; u "евна"; u "ївна"; u "євна"] in
    if truthy (_endswith_any low male_suf)
    then c <- last_item p ;;
         Ok (p ++ (if islower U c then u "у" else u "У"))
    else if truthy (_endswith_any low fem_suf)
    then c <- last_item p ;;
         Ok (drop_last p ++ (if islower U c then u "і" else u "І"))
    else if match gender with Some g => str_eqb g (u "f") | None => false end
    then
      if endswith low (u "а")
      then c <- last_item p ;;
           Ok (drop_last p ++ (if islower U c then u "і" else u "І"))
      else if endswith low (u "я")
      then c <- last_item p ;;
           Ok (drop_last p ++ (if islower U c then u "ї" else u "Ї"))
      else Ok p
    else
      l <- last_item low ;;
      if negb (_is_vowel l) || endswith low (u "ь") || endswith low (u "й")
      then let add := u "у" in
           c <- last_item p ;;
           Ok (p ++ (if islower U c then add else upper U add))
      else Ok p.

Definition dative_surname (surname : str) (gender : option str)
  : result str :=
  let s := strip surname in
  let low := lower U s in
  if py_not s then Ok s
  else if endswith low (u "енко")
  then c <- last_item s ;;
       Ok (drop_last s ++ (if islower U c then u "у" else u "У"))
  else if endswith low (u "ко")
  then c <- last_item s ;;
       Ok (drop_last s ++ (if islower U c then u "у" else u "У"))
  else if endswith low (u "о")
  then c <- last_item s ;;
       Ok (drop_last s ++ (if islower U c then u "у" else u "У"))
  else if endswith low (u "а")
  then c <- last_item s ;;
       Ok (drop_last s ++ (if islower U c then u "і" else u "І"))
  else if endswith low (u "я")
  then c <- last_item s ;;
       Ok (drop_last s ++ (if islower U c then u "ї" else u "Ї"))
  else if endswith low (u "й")
  then c <- last_item s ;;
       Ok (drop_last s ++ (if islower U c then u "ю" else u "Ю"))
  else
    l <- last_item low ;;
    if negb (_is_vowel l) || endswith low (u "ь")
    then let add := u "у" in
         c <- last_item s ;;
         Ok (s ++ (if islower U c then add else upper U add))
    else Ok s.

Definition guess_gender_from_patronymic (p : option str) : option str :=
  match p with
  | None => None
  | Some p =>
    if py_not p then None
    else
      let low := lower U p in
      if endswith low (u "ович") || endswith low (u "йович")
         || endswith low (u "евич") || endswith low (u "льович")
         || endswith low (u "євич")
      then Some (u "m")
      else if endswith low (u "івна") || endswith low (u "ївна")
              || endswith low (u "евна") || endswith low (u "євна")
      then Some (u "f")
      else None
  end.

(** The inflected parts collected in [out], before they are printed and
    joined. *)
Definition inflect_parts (fullname : str)
  : result (list str * option str * option str * option str) :=
  '(s, n, p) <- split_fullname fullname ;;
  let gender := guess_gender_from_patronymic p in
  let out := [] in
  out <- match s with
         | Some ((_ :: _) as s') =>
           x <- dative_surname s' gender ;; Ok (out ++ [x])
         | _ => Ok out
         end ;;
  out <- match n with
         | Some ((_ :: _) as n') =>
           x <- dative_first_name n' ;; Ok (out ++ [x])
         | _ => Ok out
         end ;;
  out <- match p with
         | Some ((_ :: _) as p') =>
           x <- dative_patronymic p' gender ;; Ok (out ++ [x])
         | _ => Ok out
         end ;;
  Ok (out, s, n, p).

(** [to_dative_fullname] on a standard output that takes the line of
    [print(out, s, n, p)]: the line is written and the joined parts are
    returned; an exception raised before the [print] leaves the output as
    it was.  The call in which the [print] itself raises is
    [to_dative_fullname_in] below. *)
Definition to_dative_fullname (fullname : str) (io : stdout)
  : result str * stdout :=
  match inflect_parts fullname with
  | Raise e => (Raise e, io)
  | Ok (out, s, n, p) =>
    (Ok (match out with [] => fullname | _ :: _ => join (u " ") out end),
     io ++ [mk_printed out s n p])
  end.

End Engine.


(** ** The vocabulary of the specification *)

(** A token is a non-empty run of characters none of which is whitespace;
    tokens are delimited by runs of whitespace. *)
Definition all_ws (s : str) : Prop := Forall (fun c => isspace c = true) s.
Definition no_ws (s : str) : Prop := Forall (fun c => isspace c = false) s.
Definition token (t : str) : Prop := t <> [] /\ no_ws t.

Definition starts_ws (s : str) : Prop :=
  match s with
  | [] => True
  | c :: _ => isspace c = true
  end.

(** [delimited s ts]: [ts] are the whitespace-delimited tokens of [s], in
    order. *)
Inductive delimited : str -> list str -> Prop :=
| delimited_nil (ws : str) :
    all_ws ws -> delimited ws []
| delimited_cons (ws t rest : str) (ts : list str) :
    all_ws ws -> token t -> starts_ws rest -> delimited rest ts ->
    delimited (ws ++ t ++ rest) (t :: ts).

(** The triple the specification assigns to a list of tokens. *)
Definition triple_of (ts : list str) : option str * option str * option str :=
  match ts with
  | [] => (None, None, None)
  | [t1] => (None, Some t1, None)
  | [t1; t2] => (Some t1, Some t2, None)
  | t1 :: t2 :: t3 :: _ => (Some t1, Some t2, Some t3)
  end.

(** The endings the rules append or put in place of the last letter: the
    lower-case form and the capitalised form of each. *)
Definition endings : list (str * str) :=
  [(u "і", u "І"); (u "ї", u "Ї"); (u "ю", u "Ю"); (u "ові", u "Ові");
   (u "у", u "У")].

(** The ending in the case of the character [c]: lower case when [c] is a
    lower-case letter, capitalised otherwise. *)
Definition cased (U : ucd) (c : char) (e : str * str) : str :=
  if islower U c then fst e else snd e.

(** [inflected U w r]: a rule fired on the word [w] and gave [r]: the
    characters of [w], all of them or all but the last, followed by an
    ending in the case of the last character of [w]. *)
Definition inflected (U : ucd) (w r : str) : Prop :=
  exists (c : char) (e : str * str) (stem : str),
    last_item w = Ok c /\ In e endings
    /\ (stem = w \/ stem = drop_last w)
    /\ r = stem ++ cased U c e.

(** The last letters of the endings. *)
Definition dative_vowels : list char := u "іІїЇюЮуУ".

Definition ends_in_dative_vowel (w : str) : Prop :=
  exists b e, w = b ++ [e] /\ In e dative_vowels.

(** The suffix sets of the gender inferencer. *)
Definition masculine_suffixes : list str :=
  [u "ович"; u "йович"; u "евич"; u "льович"; u "євич"].
Definition feminine_suffixes : list str :=
  [u "івна"; u "ївна"; u "евна"; u "євна"].

(** [p] ends with [suf] up to case: their lower-case forms do. *)
Definition ci_endswith (U : ucd) (p suf : str) : Prop :=
  endswith (lower U p) (lower U suf) = true.

Definition matches (U : ucd) (p : str) (sufs : list str) : Prop :=
  exists suf, In suf sufs /\ ci_endswith U p suf.

(** [last_differs a suf]: [suf] is not empty and its last character is not
    [a]. *)
Definition last_differs (a : char) (suf : str) : bool :=
  match last_item suf with
  | Ok b => negb (b =? a)
  | Raise _ => false
  end.

(** What [inflect_parts] comes to on a name whose tokens are [ts]. *)
Definition parts_of_tokens (U : ucd) (ts : list str)
  : result (list str * option str * option str * option str) :=
  match ts with
  | [] => Ok ([], None, None, None)
  | [n] =>
    n' <- dative_first_name U n ;;
    Ok ([n'], None, Some n, None)
  | [s; n] =>
    s' <- dative_surname U s None ;;
    n' <- dative_first_name U n ;;
    Ok ([s'; n'], Some s, Some n, None)
  | s :: n :: p :: _ =>
    let gender := guess_gender_from_patronymic U (Some p) in
    s' <- dative_surname U s gender ;;
    n' <- dative_first_name U n ;;
    p' <- dative_patronymic U p gender ;;
    Ok ([s'; n'; p'], Some s, Some n, Some p)
  end.

Definition with_parts (out : list str)
  (t : option str * option str * option str)
  : list str * option str * option str * option str :=
  let '(s, n, p) := t in (out, s, n, p).

(** [part_inflected rule part out]: a part that is present gives its
    inflected form, an absent part gives nothing. *)
Definition part_inflected (rule : str -> result str) (part : option str)
  (out : list str) : Prop :=
  match part with
  | None => out = []
  | Some w => exists w', rule w = Ok w' /\ out = [w']
  end.

(** The inflected parts of a split name, in the order surname, given name,
    patronymic. *)
Definition present_parts (U : ucd) (s n p : option str) (out : list str)
  : Prop :=
  let gender := guess_gender_from_patronymic U p in
  exists os on op,
    part_inflected (fun w => dative_surname U w gender) s os
    /\ part_inflected (dative_first_name U) n on
    /\ part_inflected (fun w => dative_patronymic U w gender) p op
    /\ out = os ++ on ++ op.

(** ** Reading the names

    A value of a spreadsheet cell, as far as [read_names_from_excel] looks
    at it: [None], a string, or any other object (a number, a date), of
    which only the truth value and the [str()] matter. *)
Inductive cell_value : Type :=
| CellNone
| CellStr (s : str)
| CellOther (truth : bool) (text : str).

(** [if val] *)
Definition cell_truth (val : cell_value) : bool :=
  match val with
  | CellNone => false
  | CellStr s => negb (py_not s)
  | CellOther truth _ => truth
  end.

(** [str(val)] *)
Definition cell_str (val : cell_value) : str :=
  match val with
  | CellNone => u "None"
  | CellStr s => s
  | CellOther _ text => text
  end.

(** The loop of [read_names_from_excel] over the rows that
    [ws.iter_rows(min_row=1, max_col=1, values_only=True)] yields. *)
Fixpoint read_names_loop (rows : list (list cell_value)) (names : list str)
  : result (list str) :=
  match rows with
  | [] => Ok names
  | row :: rows' =>
    val <- list_item row 0 ;;
    if cell_truth val && negb (py_not (strip (cell_str val)))
    then read_names_loop rows' (names ++ [strip (cell_str val)])
    else read_names_loop rows' names
  end.

(** [read_names_from_excel], from the rows of the sheet it opens. *)
Definition read_names_from_excel (rows : list (list cell_value))
  : result (list str) :=
  read_names_loop rows [].

(** ** The files of [generate_separate_files] *)

Fixpoint uint_chars (d : Decimal.uint) : str :=
  match d with
  | Decimal.Nil => []
  | Decimal.D0 d => 0x30 :: uint_chars d
  | Decimal.D1 d => 0x31 :: uint_chars d
  | Decimal.D2 d => 0x32 :: uint_chars d
  | Decimal.D3 d => 0x33 :: uint_chars d
  | Decimal.D4 d => 0x34 :: uint_chars d
  | Decimal.D5 d => 0x35 :: uint_chars d
  | Decimal.D6 d => 0x36 :: uint_chars d
  | Decimal.D7 d => 0x37 :: uint_chars d
  | Decimal.D8 d => 0x38 :: uint_chars d
  | Decimal.D9 d => 0x39 :: uint_chars d
  end.

(** [f"{i}"] *)
Definition format_d (i : nat) : str := uint_chars (Nat.to_uint i).

(** [f"{i:03d}"]: the decimal digits, with zeros in front up to three
    characters. *)
Definition format_03d (i : nat) : str :=
  repeat 0x30 (3 - length (format_d i)) ++ format_d i.

(** The file name [generate_separate_files] gives to the [i]-th person:
    [label = s or (n or f"{i}")] and [f"{i:03d}_{label}.docx"]. *)
Definition separate_file_name (i : nat) (person : str) : result str :=
  '(s, n, p) <- split_fullname person ;;
  let label :=
    match s with
    | Some ((_ :: _) as s') => s'
    | _ =>
      match n with
      | Some ((_ :: _) as n') => n'
      | _ => format_d i
      end
    end in
  Ok (format_03d i ++ u "_" ++ label ++ u ".docx").

(** The loop of [generate_separate_files], from the index [i] on, in a run
    in which no call of [os], of the [docx] library or of [print] raises.
    What is kept of a document is the name of the file it is saved to,
    inside [out_dir], and the text put in place of the placeholders.  The
    run in which such a call raises is [generate_separate_files_in]
    below. *)
Fixpoint generate_separate_files_from (U : ucd) (i : nat) (names : list str)
  (io : stdout) : result (list (str * str)) * stdout :=
  match names with
  | [] => (Ok [], io)
  | person :: names' =>
    match to_dative_fullname U person io with
    | (Raise e, io1) => (Raise e, io1)
    | (Ok repl, io1) =>
      match separate_file_name i person with
      | Raise e => (Raise e, io1)
      | Ok fname =>
        match generate_separate_files_from U (S i) names' io1 with
        | (Raise e, io2) => (Raise e, io2)
        | (Ok files, io2) => (Ok ((fname, repl) :: files), io2)
        end
      end
    end
  end.

(** [generate_separate_files]: [enumerate(names, 1)]. *)
Definition generate_separate_files (U : ucd) (names : list str) (io : stdout)
  : result (list (str * str)) * stdout :=
  generate_separate_files_from U 1 names io.

(** ** Merging the files *)

(** The order of Python on strings: by code point, a proper prefix before
    the longer string. *)
Fixpoint str_ltb (a b : str) : bool :=
  match a, b with
  | _, [] => false
  | [], _ :: _ => true
  | x :: a', y :: b' => (x <? y) || ((x =? y) && str_ltb a' b')
  end.

Definition str_leb (a b : str) : bool := negb (str_ltb b a).

Fixpoint insert_sorted (x : str) (l : list str) : list str :=
  match l with
  | [] => [x]
  | y :: l' => if str_leb x y then x :: l else y :: insert_sorted x l'
  end.

(** [sorted(l)] on a list of strings. *)
Definition sorted (l : list str) : list str := fold_right insert_sorted [] l.

(** [os.path.join(a, b)] of [posixpath]. *)
Definition os_path_join (a b : str) : str :=
  if match b with c :: _ => c =? 0x2F | [] => false end then b
  else if py_not a || endswith a (u "/") then a ++ b
  else a ++ u "/" ++ b.

Inductive merge_exn : Type := ValueError | RuntimeError.

(** [merge_docx_in_dir], from the entries [os.listdir(in_dir)] gives and
    the flag [HAS_COMPOSER], in a run in which no call of the [docx] and
    [docxcompose] libraries raises; the result is the list of the files in
    the order in which their documents are put together, the first one
    being the master document.  The run in which such a call raises is
    [merge_docx_in_dir_in] below. *)
Definition merge_docx_in_dir (U : ucd) (HAS_COMPOSER : bool) (in_dir : str)
  (listing : list str) : merge_exn + list str :=
  let files :=
    sorted (map (os_path_join in_dir)
              (filter (fun f => endswith (lower U f) (u ".docx")) listing)) in
  match files with
  | [] => inl ValueError
  | _ :: _ => if HAS_COMPOSER then inr files else inl RuntimeError
  end.

(** ** Runs in which [print] and the libraries can raise *)

(** What a call can raise: an exception of the built-in operations, the
    [UnicodeEncodeError] of [print], the two exceptions
    [merge_docx_in_dir] raises itself, or an exception out of [os], [docx]
    or [docxcompose]. *)
Inductive error : Type :=
| Builtin (e : exn)
| UnicodeEncodeError
| Merge (e : merge_exn)
| LibraryError.

Definition is_surrogate (c : char) : bool := (0xD800 <=? c) && (c <=? 0xDFFF).

(** [str(x)] of an [Optional[str]], as [print] writes it. *)
Definition str_of_optional (o : option str) : str :=
  match o with
  | Some s => s
  | None => u "None"
  end.

(** Whether a standard output encoded as UTF-8 takes the line of
    [print(out, s, n, p)]: [s], [n] and [p] are written as they are, and
    UTF-8 encodes every character but the surrogates; [out] is written
    through [repr], which escapes them. *)
Definition utf8_print_ok (line : printed) : bool :=
  negb (existsb is_surrogate
          (str_of_optional (printed_s line)
           ++ str_of_optional (printed_n line)
           ++ str_of_optional (printed_p line))).

(** [to_dative_fullname] on a standard output that takes the lines
    [accepts] says and refuses the others: what the call returns or
    raises. *)
Definition to_dative_fullname_in (accepts : printed -> bool) (U : ucd)
  (fullname : str) : error + str :=
  match inflect_parts U fullname with
  | Raise e => inl (Builtin e)
  | Ok (out, s, n, p) =>
    if accepts (mk_printed out s n p)
    then inr (match out with [] => fullname | _ :: _ => join (u " ") out end)
    else inl UnicodeEncodeError
  end.

(** The calls outside the code, each with the answer whether it goes
    through. *)
Record world : Type := {
  (** [print(out, s, n, p)] *)
  print_ok : printed -> bool;
  (** [os.makedirs(out_dir, exist_ok=True)] *)
  makedirs_ok : bool;
  (** [Document(template_path)], for the [i]-th person *)
  template_ok : nat -> bool;
  (** [replace_everywhere(doc, ...)], for the [i]-th person *)
  replace_ok : nat -> bool;
  (** [doc.save(os.path.join(out_dir, fname))], for the [i]-th person *)
  save_ok : nat -> str -> bool;
  (** [Document(f)] and [composer.append] *)
  open_ok : str -> bool;
  (** [composer.save(out_path)] *)
  composer_save_ok : bool
}.

(** The world in which every call goes through. *)
Definition world_ok : world :=
  {| print_ok := fun _ => true;
     makedirs_ok := true;
     template_ok := fun _ => true;
     replace_ok := fun _ => true;
     save_ok := fun _ _ => true;
     open_ok := fun _ => true;
     composer_save_ok := true |}.

(** The loop of [generate_separate_files], from the index [i] on: the
    files saved, with the text put in place of the placeholders, and the
    exception that stopped the loop, if one did. *)
Fixpoint generate_separate_files_loop (W : world) (U : ucd) (i : nat)
  (names : list str) : list (str * str) * option error :=
  match names with
  | [] => ([], None)
  | person :: names' =>
    if negb (template_ok W i) then ([], Some LibraryError)
    else
      match to_dative_fullname_in (print_ok W) U person with
      | inl e => ([], Some e)
      | inr repl =>
        if negb (replace_ok W i) then ([], Some LibraryError)
        else
          match separate_file_name i person with
          | Raise e => ([], Some (Builtin e))
          | Ok fname =>
            if negb (save_ok W i fname) then ([], Some LibraryError)
            else
              let (files, stop) :=
                generate_separate_files_loop W U (S i) names' in
              ((fname, repl) :: files, stop)
          end
      end
  end.

(** [generate_separate_files] in the world [W]. *)
Definition generate_separate_files_in (W : world) (U : ucd)
  (names : list str) : list (str * str) * option error :=
  if makedirs_ok W then generate_separate_files_loop W U 1 names
  else ([], Some LibraryError).

(** [merge_docx_in_dir] in the world [W]; [listing] is what
    [os.listdir(in_dir)] returns, [None] when it raises. *)
Definition merge_docx_in_dir_in (W : world) (U : ucd) (HAS_COMPOSER : bool)
  (in_dir : str) (listing : option (list str)) : error + list str :=
  match listing with
  | None => inl LibraryError
  | Some entries =>
    let files :=
      sorted (map (os_path_join in_dir)
                (filter (fun f => endswith (lower U f) (u ".docx"))
                   entries)) in
    match files with
    | [] => inl (Merge ValueError)
    | _ :: _ =>
      if HAS_COMPOSER
      then
        if forallb (open_ok W) files && composer_save_ok W
        then inr files
        else inl LibraryError
      else inl (Merge RuntimeError)
    end
  end.

(** The name of the file of the person at position [j] of [names], for a
    loop that starts at the index [i]. *)
Definition file_name_at (i : nat) (names : list str) (j : nat) : str :=
  format_03d (i + j) ++ u "_"
  ++ match split (nth j names []) with
     | t :: _ => t
     | [] => format_d (i + j)
     end
  ++ u ".docx".

(** ** More vocabulary *)

(** The one character of a one-letter literal. *)
Definition chr (s : string) : char := hd 0 (u s).

(** The given-name table, read by the last character: [l] is the last
    character of the lower-case form of the word [n], [c] the last
    character of [n]. *)
Definition first_name_by_last (U : ucd) (n : str) (l c : char) : str :=
  if l =? chr "а" then drop_last n ++ cased U c (u "і", u "І")
  else if l =? chr "я" then drop_last n ++ cased U c (u "ї", u "Ї")
  else if l =? chr "й" then drop_last n ++ cased U c (u "ю", u "Ю")
  else if l =? chr "о" then drop_last n ++ cased U c (u "ові", u "Ові")
  else if _is_vowel U l then n
  else n ++ cased U c (u "ові", u "Ові").

(** The surname table, read by the last character. *)
Definition surname_by_last (U : ucd) (s : str) (l c : char) : str :=
  if l =? chr "о" then drop_last s ++ cased U c (u "у", u "У")
  else if l =? chr "а" then drop_last s ++ cased U c (u "і", u "І")
  else if l =? chr "я" then drop_last s ++ cased U c (u "ї", u "Ї")
  else if l =? chr "й" then drop_last s ++ cased U c (u "ю", u "Ю")
  else if _is_vowel U l then s
  else s ++ cased U c (u "у", u "У").

Definition is_digit (c : char) : bool := (0x30 <=? c) && (c <=? 0x39).

(** ** Lists and strings *)

Lemma str_eqb_eq (a b : str) : str_eqb a b = true <-> a = b.
Proof.
  revert b; induction a as [|x a IH]; intros [|y b]; simpl; split;
    try discriminate; try reflexivity.
  - intros H. apply andb_true_iff in H as [Hx Hr].
    apply N.eqb_eq in Hx. apply IH in Hr. now subst.
  - intros H. injection H as -> ->.
    rewrite N.eqb_refl. simpl. now apply IH.
Qed.

Lemma endswith_iff (s suf : str) :
  endswith s suf = true <-> exists pre, s = pre ++ suf.
Proof.
  unfold endswith. split.
  - destruct (Nat.leb (length suf) (length s)); [|discriminate].
    intros H. apply str_eqb_eq in H.
    exists (firstn (length s - length suf) s).
    pose proof (firstn_skipn (length s - length suf) s) as E.
    rewrite H in E. now symmetry.
  - intros [pre ->]. rewrite length_app.
    replace (Nat.leb (length suf) (length pre + length suf)) with true
      by (symmetry; apply Nat.leb_le; lia).
    replace (length pre + length suf - length suf)%nat with (length pre)
      by lia.
    apply str_eqb_eq.
    rewrite skipn_app, skipn_all, Nat.sub_diag. reflexivity.
Qed.

Lemma last_item_snoc (s : str) (c : char) : last_item (s ++ [c]) = Ok c.
Proof.
  induction s as [|a s IH]; [reflexivity|].
  simpl. destruct (s ++ [c]) eqn:E; [|exact IH].
  now destruct s.
Qed.

Lemma snoc_of_nonempty (s : str) :
  s <> [] -> exists c, s = drop_last s ++ [c].
Proof.
  intros H. exists (last s 0). now apply app_removelast_last.
Qed.

Lemma last_item_ok (s : str) :
  s <> [] -> exists c, last_item s = Ok c /\ s = drop_last s ++ [c].
Proof.
  intros H. destruct (snoc_of_nonempty s H) as [c Hc].
  exists c. split; [|exact Hc]. rewrite Hc. apply last_item_snoc.
Qed.

Lemma drop_last_snoc (s : str) (c : char) : drop_last (s ++ [c]) = s.
Proof. unfold drop_last. apply removelast_last. Qed.

Lemma endswith_snoc (s suf : str) (a : char) :
  endswith (s ++ [a]) suf = true -> suf = [] \/ last_item suf = Ok a.
Proof.
  intros H. apply endswith_iff in H as [pre H].
  destruct suf as [|b suf]; [now left|right].
  destruct (last_item_ok (b :: suf)) as [c [Hc Hs]]; [discriminate|].
  rewrite Hs, app_assoc in H. apply app_inj_tail in H as [_ ->].
  exact Hc.
Qed.

(** ** Stripping and splitting *)

Lemma lstrip_decomp (s : str) : exists ws, all_ws ws /\ s = ws ++ lstrip s.
Proof.
  induction s as [|c s [ws [Hws Hs]]].
  - exists []. split; [constructor|reflexivity].
  - simpl. destruct (isspace c) eqn:Hc.
    + exists (c :: ws). split; [now constructor|]. simpl. now f_equal.
    + exists []. split; [constructor|reflexivity].
Qed.

Lemma rstrip_decomp (s : str) : exists ws, all_ws ws /\ s = rstrip s ++ ws.
Proof.
  destruct (lstrip_decomp (rev s)) as [ws [Hws Hs]].
  exists (rev ws). split.
  - now apply Forall_rev.
  - unfold rstrip. rewrite <- rev_app_distr, <- Hs. symmetry. apply rev_involutive.
Qed.

Lemma split_from_ws (cur ws : str) :
  all_ws ws ->
  split_from cur ws = match cur with [] => [] | _ :: _ => [rev cur] end.
Proof.
  intros H. revert cur. induction H as [|c ws Hc _ IH]; intros cur.
  - reflexivity.
  - simpl. rewrite Hc, (IH []). now destruct cur.
Qed.

Lemma split_from_app_ws (cur s ws : str) :
  all_ws ws -> split_from cur (s ++ ws) = split_from cur s.
Proof.
  intros H. revert cur. induction s as [|c s IH]; intros cur.
  - simpl. now apply split_from_ws.
  - simpl. destruct (isspace c); [destruct cur|]; now rewrite IH.
Qed.

Lemma split_from_ws_prefix (ws rest : str) :
  all_ws ws -> split_from [] (ws ++ rest) = split_from [] rest.
Proof.
  induction 1 as [|c ws Hc _ IH]; [reflexivity|].
  simpl. now rewrite Hc.
Qed.

Lemma split_from_token (cur t rest : str) :
  no_ws t -> split_from cur (t ++ rest) = split_from (rev t ++ cur) rest.
Proof.
  intros H. revert cur. induction H as [|c t Hc _ IH]; intros cur.
  - reflexivity.
  - simpl. rewrite Hc, IH, <- app_assoc. reflexivity.
Qed.

Lemma split_from_flush (cur rest : str) :
  cur <> [] -> starts_ws rest -> split_from cur rest = rev cur :: split rest.
Proof.
  intros Hcur Hrest. destruct rest as [|c rest]; simpl in *.
  - now destruct cur.
  - unfold split. simpl. rewrite Hrest. now destruct cur.
Qed.

Lemma split_lstrip (s : str) : split (lstrip s) = split s.
Proof.
  induction s as [|c s IH]; [reflexivity|].
  simpl. destruct (isspace c) eqn:Hc; [|reflexivity].
  rewrite IH. unfold split. simpl. now rewrite Hc.
Qed.

Lemma split_strip (s : str) : split (strip s) = split s.
Proof.
  unfold strip. transitivity (split (lstrip s)); [|apply split_lstrip].
  destruct (rstrip_decomp (lstrip s)) as [ws [Hws Hs]].
  assert (E : split (rstrip (lstrip s) ++ ws) = split (rstrip (lstrip s)))
    by (unfold split; now apply split_from_app_ws).
  rewrite <- E. now rewrite <- Hs.
Qed.

Lemma delimited_split (s : str) (ts : list str) :
  delimited s ts -> split s = ts.
Proof.
  induction 1 as [ws Hws | ws t rest ts Hws [Hne Ht] Hrest _ IH].
  - unfold split. now rewrite split_from_ws.
  - unfold split. rewrite split_from_ws_prefix by assumption.
    rewrite split_from_token by assumption.
    rewrite split_from_flush; [|rewrite app_nil_r; now destruct t using rev_ind;
      [|rewrite rev_app_distr]|assumption].
    now rewrite app_nil_r, rev_involutive, IH.
Qed.

Lemma delimited_ws_cons (c : char) (s : str) (ts : list str) :
  isspace c = true -> delimited s ts -> delimited (c :: s) ts.
Proof.
  intros Hc H. destruct H as [ws Hws | ws t rest ts Hws Ht Hrest Hd].
  - constructor. now constructor.
  - apply (delimited_cons (c :: ws)); try assumption. now constructor.
Qed.

Lemma delimited_exists (s : str) : exists ts, delimited s ts.
Proof.
  assert (Htok : forall c t, isspace c = false -> no_ws t -> token (c :: t))
    by (intros c t Hc Ht; split; [discriminate|now constructor]).
  induction s as [|c s [ts IH]].
  - exists []. constructor. constructor.
  - destruct (isspace c) eqn:Hc.
    + exists ts. now apply delimited_ws_cons.
    + destruct IH as [ws Hws | ws t rest ts Hws [Hne Ht] Hrest Hd].
      * exists [[c]]. apply (delimited_cons [] [c] ws []).
        -- constructor.
        -- apply Htok; [assumption|constructor].
        -- now destruct Hws.
        -- now constructor.
      * destruct ws as [|w ws].
        -- exists ((c :: t) :: ts).
           apply (delimited_cons [] (c :: t) rest ts);
             [constructor|now apply Htok|assumption|assumption].
        -- exists ([c] :: t :: ts).
           apply (delimited_cons [] [c] ((w :: ws) ++ t ++ rest) (t :: ts)).
           ++ constructor.
           ++ apply Htok; [assumption|constructor].
           ++ simpl. now inversion Hws.
           ++ now constructor.
Qed.

Lemma delimited_tokens (s : str) (ts : list str) :
  delimited s ts -> Forall token ts.
Proof. induction 1; now constructor. Qed.

Lemma filter_tokens (ts : list str) :
  Forall token ts -> filter (fun p => negb (py_not p)) ts = ts.
Proof.
  induction 1 as [|t ts [Hne _] _ IH]; [reflexivity|].
  simpl. destruct t; [contradiction|]. simpl. now rewrite IH.
Qed.

Lemma split_fullname_delimited (s : str) (ts : list str) :
  delimited s ts -> split_fullname s = Ok (triple_of ts).
Proof.
  intros H. unfold split_fullname.
  rewrite split_strip, (delimited_split s ts H).
  rewrite (filter_tokens ts (delimited_tokens s ts H)).
  destruct ts as [|t1 [|t2 [|t3 ts]]]; reflexivity.
Qed.

Lemma endswith_snoc_differs (x suf : str) (a : char) :
  last_differs a suf = true -> endswith (x ++ [a]) suf = false.
Proof.
  unfold last_differs. intros H.
  destruct (endswith (x ++ [a]) suf) eqn:E; [|reflexivity].
  apply endswith_snoc in E as [-> | E]; [discriminate|].
  rewrite E, N.eqb_refl in H. discriminate.
Qed.

Lemma lstrip_no_ws (w : str) : no_ws w -> lstrip w = w.
Proof. intros [|c w' Hc _]; [reflexivity|]. simpl. now rewrite Hc. Qed.

Lemma strip_no_ws (w : str) : no_ws w -> strip w = w.
Proof.
  intros H. unfold strip, rstrip. rewrite (lstrip_no_ws w H).
  rewrite lstrip_no_ws by now apply Forall_rev.
  apply rev_involutive.
Qed.

Lemma no_ws_drop_last (w : str) : no_ws w -> no_ws (drop_last w).
Proof.
  intros H. destruct w as [|a w' _] using rev_ind; [exact H|].
  rewrite drop_last_snoc. now apply Forall_app in H.
Qed.

Lemma delimited_join (ts : list str) :
  Forall token ts -> delimited (join (u " ") ts) ts.
Proof.
  induction 1 as [|t ts Ht Hts IH].
  - constructor. constructor.
  - destruct ts as [|t' ts].
    + assert (D : delimited ([] ++ t ++ []) [t]).
      { apply delimited_cons; [constructor|assumption|exact I|].
        constructor. constructor. }
      cbn [app] in D. now rewrite app_nil_r in D.
    + change (join (u " ") (t :: t' :: ts))
        with ([] ++ t ++ u " " ++ join (u " ") (t' :: ts)).
      apply delimited_cons; [constructor|assumption|reflexivity|].
      now apply (delimited_ws_cons 32).
Qed.

(** ** Lower-casing *)

Section CaseFacts.

Variable U : ucd.

Lemma lower_ucs4_nonempty (before : str) (c : char) (after : str) :
  lower_ucs4 U before c after <> [].
Proof.
  unfold lower_ucs4, tolower_full.
  destruct (c =? 0x3A3); [discriminate|].
  destruct (in_written_blocks c); [discriminate|].
  destruct (ToLowerFull U c). discriminate.
Qed.

Lemma do_lower_nonempty (before s : str) :
  s <> [] -> do_lower U before s <> [].
Proof.
  destruct s as [|c s]; [contradiction|]. intros _ H. simpl in H.
  apply app_eq_nil in H as [H _]. now apply lower_ucs4_nonempty in H.
Qed.

Lemma do_lower_snoc (before s : str) (c : char) :
  exists x,
    do_lower U before (s ++ [c]) = x ++ lower_ucs4 U (rev s ++ before) c [].
Proof.
  revert before. induction s as [|a s IH]; intros before.
  - exists []. simpl. now rewrite app_nil_r.
  - destruct (IH (a :: before)) as [x Hx].
    exists (lower_ucs4 U before a (s ++ [c]) ++ x).
    simpl. rewrite Hx, <- !app_assoc. reflexivity.
Qed.

Lemma last_item_lower (s : str) :
  s <> [] -> exists l, last_item (lower U s) = Ok l.
Proof.
  intros H. destruct (last_item_ok (lower U s)) as [l [Hl _]].
  - now apply do_lower_nonempty.
  - now exists l.
Qed.

(** The lower-case form of a word that ends in one of the dative vowels
    ends in the lower-case vowel. *)
Lemma lower_dative_vowel (b : str) (e : char) :
  In e dative_vowels ->
  exists x l, lower U (b ++ [e]) = x ++ [l] /\ In l (u "іїюу").
Proof.
  intros He. destruct (do_lower_snoc [] b e) as [x Hx].
  unfold lower. rewrite Hx. clear Hx.
  repeat (destruct He as [<- | He];
          [exists x; eexists; split; [reflexivity|];
           cbv; tauto|]).
  destruct He.
Qed.

End CaseFacts.

(** ** The three rules, word by word *)

(** [fires c e stem] closes a branch in which a rule put the ending [e]
    after [stem]; [stays] closes one that returns the word as it is. *)
Ltac in_endings :=
  unfold endings; cbn [In]; repeat (first [left; reflexivity | right]).

Ltac fires c e stem :=
  right; eexists; split; [reflexivity|];
  exists c, e, stem; split; [assumption|]; split; [in_endings|];
  split; [auto|reflexivity].

Ltac stays := left; reflexivity.

Section Rules.

Variable U : ucd.

Lemma dative_first_name_shape (name : str) :
  dative_first_name U name = Ok (strip name)
  \/ exists r, dative_first_name U name = Ok r
               /\ inflected U (strip name) r.
Proof.
  unfold dative_first_name.
  set (n := strip name). set (low := lower U n).
  destruct (py_not n) eqn:Hn; [stays|].
  assert (Hne : n <> []) by (intros E; rewrite E in Hn; discriminate).
  destruct (last_item_ok n Hne) as [c [Hc _]].
  destruct (last_item_lower U n Hne) as [l Hl]. fold low in Hl.
  rewrite Hc, Hl. cbn [bind].
  destruct (endswith low (u "а")); [fires c (u "і", u "І") (drop_last n)|].
  destruct (endswith low (u "я")); [fires c (u "ї", u "Ї") (drop_last n)|].
  destruct (endswith low (u "й")); [fires c (u "ю", u "Ю") (drop_last n)|].
  destruct (endswith low (u "о"));
    [fires c (u "ові", u "Ові") (drop_last n)|].
  destruct (negb (_is_vowel U l) || endswith low (u "ь"));
    [fires c (u "ові", u "Ові") n|stays].
Qed.

Lemma dative_surname_shape (surname : str) (gender : option str) :
  dative_surname U surname gender = Ok (strip surname)
  \/ exists r, dative_surname U surname gender = Ok r
               /\ inflected U (strip surname) r.
Proof.
  unfold dative_surname.
  set (s := strip surname). set (low := lower U s).
  destruct (py_not s) eqn:Hn; [stays|].
  assert (Hne : s <> []) by (intros E; rewrite E in Hn; discriminate).
  destruct (last_item_ok s Hne) as [c [Hc _]].
  destruct (last_item_lower U s Hne) as [l Hl]. fold low in Hl.
  rewrite Hc, Hl. cbn [bind].
  destruct (endswith low (u "енко"));
    [fires c (u "у", u "У") (drop_last s)|].
  destruct (endswith low (u "ко")); [fires c (u "у", u "У") (drop_last s)|].
  destruct (endswith low (u "о")); [fires c (u "у", u "У") (drop_last s)|].
  destruct (endswith low (u "а")); [fires c (u "і", u "І") (drop_last s)|].
  destruct (endswith low (u "я")); [fires c (u "ї", u "Ї") (drop_last s)|].
  destruct (endswith low (u "й")); [fires c (u "ю", u "Ю") (drop_last s)|].
  destruct (negb (_is_vowel U l) || endswith low (u "ь"));
    [fires c (u "у", u "У") s|stays].
Qed.

Lemma dative_patronymic_shape (p : str) (gender : option str) :
  dative_patronymic U p gender = Ok p
  \/ exists r, dative_patronymic U p gender = Ok r /\ inflected U p r.
Proof.
  unfold dative_patronymic.
  set (low := lower U p).
  destruct (py_not p) eqn:Hn; [left; now destruct p|].
  assert (Hne : p <> []) by (intros E; rewrite E in Hn; discriminate).
  destruct (last_item_ok p Hne) as [c [Hc _]].
  destruct (last_item_lower U p Hne) as [l Hl]. fold low in Hl.
  rewrite Hc, Hl. cbn [bind].
  destruct (truthy (_endswith_any low _)); [fires c (u "у", u "У") p|].
  destruct (truthy (_endswith_any low _));
    [fires c (u "і", u "І") (drop_last p)|].
  destruct (match gender with Some g => str_eqb g (u "f") | None => false end).
  - destruct (endswith low (u "а"));
      [fires c (u "і", u "І") (drop_last p)|].
    destruct (endswith low (u "я"));
      [fires c (u "ї", u "Ї") (drop_last p)|stays].
  - destruct (negb (_is_vowel U l) || endswith low (u "ь")
              || endswith low (u "й"));
      [fires c (u "у", u "У") p|stays].
Qed.

End Rules.

(** ** Inflected words are left alone *)

Ltac in_list := cbv; repeat (first [left; reflexivity | right]).

Section Stable.

Variable U : ucd.

Lemma cased_ending (c : char) (e : str * str) :
  In e endings ->
  no_ws (cased U c e)
  /\ exists b v, cased U c e = b ++ [v] /\ In v dative_vowels.
Proof.
  intros He. unfold cased. unfold endings in He. cbn [In] in He.
  repeat (destruct He as [<- | He];
    [destruct (islower U c); cbn [fst snd];
     (split; [cbv; repeat constructor|]);
     match goal with
     | |- exists b v, ?sfx = _ /\ _ =>
       exists (removelast sfx), (last sfx 0);
       split; [reflexivity|in_list]
     end|]).
  destruct He.
Qed.

Lemma inflected_ends (w r : str) :
  inflected U w r -> ends_in_dative_vowel r.
Proof.
  intros (c & e & stem & _ & He & _ & ->).
  destruct (cased_ending c e He) as [_ (b & v & -> & Hv)].
  exists (stem ++ b), v. split; [apply app_assoc|assumption].
Qed.

Lemma inflected_no_ws (w r : str) :
  no_ws w -> inflected U w r -> no_ws r.
Proof.
  intros Hw (c & e & stem & _ & He & Hstem & ->).
  apply Forall_app. split.
  - destruct Hstem as [-> | ->]; [assumption|now apply no_ws_drop_last].
  - now apply cased_ending.
Qed.

Lemma inflected_token (w r : str) :
  no_ws w -> inflected U w r -> token r.
Proof.
  intros Hw Hi. split; [|now apply (inflected_no_ws w)].
  destruct (inflected_ends w r Hi) as (b & v & -> & _). now destruct b.
Qed.

Lemma py_not_snoc (b : str) (e : char) : py_not (b ++ [e]) = false.
Proof. now destruct b. Qed.

Lemma first_name_stable (w : str) :
  no_ws w -> ends_in_dative_vowel w -> dative_first_name U w = Ok w.
Proof.
  intros Hw (b & e & -> & He). unfold dative_first_name.
  rewrite (strip_no_ws _ Hw), py_not_snoc.
  destruct (lower_dative_vowel U b e He) as (x & l & -> & Hl).
  rewrite !last_item_snoc. cbn [bind].
  cbv in Hl.
  repeat (destruct Hl as [<- | Hl];
          [rewrite !endswith_snoc_differs by reflexivity; reflexivity|]).
  destruct Hl.
Qed.

Lemma surname_stable (w : str) (gender : option str) :
  no_ws w -> ends_in_dative_vowel w -> dative_surname U w gender = Ok w.
Proof.
  intros Hw (b & e & -> & He). unfold dative_surname.
  rewrite (strip_no_ws _ Hw), py_not_snoc.
  destruct (lower_dative_vowel U b e He) as (x & l & -> & Hl).
  rewrite !last_item_snoc. cbn [bind].
  cbv in Hl.
  repeat (destruct Hl as [<- | Hl];
          [rewrite !endswith_snoc_differs by reflexivity; reflexivity|]).
  destruct Hl.
Qed.

Lemma guess_gender_dative_vowel (w : str) :
  ends_in_dative_vowel w -> guess_gender_from_patronymic U (Some w) = None.
Proof.
  intros (b & e & -> & He). unfold guess_gender_from_patronymic.
  rewrite py_not_snoc.
  destruct (lower_dative_vowel U b e He) as (x & l & -> & Hl).
  cbv in Hl.
  repeat (destruct Hl as [<- | Hl];
          [rewrite !endswith_snoc_differs by reflexivity; reflexivity|]).
  destruct Hl.
Qed.

Lemma patronymic_stable (w : str) :
  ends_in_dative_vowel w -> dative_patronymic U w None = Ok w.
Proof.
  intros (b & e & -> & He). unfold dative_patronymic.
  rewrite py_not_snoc.
  destruct (lower_dative_vowel U b e He) as (x & l & -> & Hl).
  rewrite !last_item_snoc. cbn [bind].
  unfold _endswith_any. cbn [find].
  cbv in Hl.
  repeat (destruct Hl as [<- | Hl];
          [rewrite !endswith_snoc_differs by reflexivity; reflexivity|]).
  destruct Hl.
Qed.

(** Each rule, on a token, returns a token on which it then changes
    nothing. *)
Lemma dative_first_name_token (t : str) :
  token t ->
  exists t', dative_first_name U t = Ok t' /\ token t'
             /\ dative_first_name U t' = Ok t'.
Proof.
  intros [Hne Hws].
  destruct (dative_first_name_shape U t) as [H | (r & H & Hi)];
    rewrite (strip_no_ws t Hws) in *.
  - exists t. now repeat split.
  - exists r. split; [assumption|]. split; [now apply (inflected_token t)|].
    apply first_name_stable;
      [now apply (inflected_no_ws t)|now apply (inflected_ends t)].
Qed.

Lemma dative_surname_token (t : str) (gender : option str) :
  token t ->
  exists t', dative_surname U t gender = Ok t' /\ token t'
             /\ forall g, dative_surname U t' g = Ok t'.
Proof.
  intros [Hne Hws].
  destruct (dative_surname_shape U t gender) as [H | (r & H & Hi)];
    rewrite (strip_no_ws t Hws) in *.
  - exists t. now repeat split.
  - exists r. split; [assumption|]. split; [now apply (inflected_token t)|].
    intros g. apply surname_stable;
      [now apply (inflected_no_ws t)|now apply (inflected_ends t)].
Qed.

Lemma dative_patronymic_token (t : str) :
  token t ->
  exists t',
    dative_patronymic U t (guess_gender_from_patronymic U (Some t)) = Ok t'
    /\ token t'
    /\ dative_patronymic U t' (guess_gender_from_patronymic U (Some t'))
       = Ok t'.
Proof.
  intros [Hne Hws].
  destruct (dative_patronymic_shape U t
              (guess_gender_from_patronymic U (Some t)))
    as [H | (r & H & Hi)].
  - exists t. now repeat split.
  - exists r. split; [assumption|]. split; [now apply (inflected_token t)|].
    rewrite guess_gender_dative_vowel by now apply (inflected_ends t).
    apply patronymic_stable. now apply (inflected_ends t).
Qed.

End Stable.

(** ** The engine on the tokens of a name *)

Section Parts.

Variable U : ucd.

Lemma inflect_parts_delimited (fullname : str) (ts : list str) :
  delimited fullname ts -> inflect_parts U fullname = parts_of_tokens U ts.
Proof.
  intros H. unfold inflect_parts.
  rewrite (split_fullname_delimited fullname ts H).
  pose proof (delimited_tokens fullname ts H) as Htok.
  destruct ts as [|t1 [|t2 [|t3 ts]]]; cbn [triple_of bind parts_of_tokens].
  - reflexivity.
  - inversion Htok as [|? ? [H1 _] _]; subst.
    destruct t1; [contradiction|]. cbn [app].
    now destruct (dative_first_name U _).
  - inversion Htok as [|? ? [H1 _] Htok']; subst.
    inversion Htok' as [|? ? [H2 _] _]; subst.
    destruct t1; [contradiction|]. destruct t2; [contradiction|].
    cbn [app guess_gender_from_patronymic].
    destruct (dative_surname U _ _); [|reflexivity]. cbn [bind app].
    now destruct (dative_first_name U _).
  - inversion Htok as [|? ? [H1 _] Htok']; subst.
    inversion Htok' as [|? ? [H2 _] Htok'']; subst.
    inversion Htok'' as [|? ? [H3 _] _]; subst.
    destruct t1; [contradiction|]. destruct t2; [contradiction|].
    destruct t3 as [|c3 t3]; [contradiction|].
    set (g := guess_gender_from_patronymic U (Some (c3 :: t3))).
    cbn [app].
    destruct (dative_surname U _ _); [|reflexivity]. cbn [bind app].
    destruct (dative_first_name U _); [|reflexivity]. cbn [bind app].
    now destruct (dative_patronymic U _ _).
Qed.

(** On tokens the three rules return tokens, and running the engine on
    these changes nothing more. *)
Lemma parts_of_tokens_ok (ts : list str) :
  Forall token ts ->
  exists out,
    parts_of_tokens U ts = Ok (with_parts out (triple_of ts))
    /\ Forall token out
    /\ parts_of_tokens U out = Ok (with_parts out (triple_of out))
    /\ (out = [] <-> ts = []).
Proof.
  intros Htok.
  destruct ts as [|t1 [|t2 [|t3 ts]]]; cbn [triple_of parts_of_tokens].
  - exists []. repeat split; constructor.
  - inversion Htok as [|? ? H1 _]; subst.
    destruct (dative_first_name_token U t1 H1) as (n' & Hn & Tn & Sn).
    exists [n']. rewrite Hn. cbn [bind parts_of_tokens triple_of].
    rewrite Sn. cbn [bind].
    split; [reflexivity|]; split;
      [repeat (apply Forall_cons; [assumption|]); apply Forall_nil|];
      split; [reflexivity|]; split; discriminate.
  - inversion Htok as [|? ? H1 Htok']; subst.
    inversion Htok' as [|? ? H2 _]; subst.
    destruct (dative_surname_token U t1 None H1) as (s' & Hs & Ts & Ss).
    destruct (dative_first_name_token U t2 H2) as (n' & Hn & Tn & Sn).
    exists [s'; n']. rewrite Hs, Hn. cbn [bind parts_of_tokens triple_of].
    rewrite Ss, Sn. cbn [bind].
    split; [reflexivity|]; split;
      [repeat (apply Forall_cons; [assumption|]); apply Forall_nil|];
      split; [reflexivity|]; split; discriminate.
  - inversion Htok as [|? ? H1 Htok']; subst.
    inversion Htok' as [|? ? H2 Htok'']; subst.
    inversion Htok'' as [|? ? H3 _]; subst.
    destruct (dative_surname_token U t1
                (guess_gender_from_patronymic U (Some t3)) H1)
      as (s' & Hs & Ts & Ss).
    destruct (dative_first_name_token U t2 H2) as (n' & Hn & Tn & Sn).
    destruct (dative_patronymic_token U t3 H3) as (p' & Hp & Tp & Sp).
    exists [s'; n'; p']. cbv zeta. rewrite Hs, Hn, Hp.
    cbn [bind parts_of_tokens triple_of]. cbv zeta.
    rewrite Ss, Sn, Sp. cbn [bind].
    split; [reflexivity|]; split;
      [repeat (apply Forall_cons; [assumption|]); apply Forall_nil|];
      split; [reflexivity|]; split; discriminate.
Qed.

(** The engine never raises, and its result is a fixed point. *)
Lemma inflect_parts_fixed (fullname : str) :
  exists out s n p,
    inflect_parts U fullname = Ok (out, s, n, p)
    /\ split_fullname fullname = Ok (s, n, p)
    /\ (out = [] -> inflect_parts U fullname = Ok ([], None, None, None))
    /\ (out <> [] ->
        inflect_parts U (join (u " ") out)
        = Ok (with_parts out (triple_of out))).
Proof.
  destruct (delimited_exists fullname) as [ts Hd].
  destruct (parts_of_tokens_ok ts (delimited_tokens fullname ts Hd))
    as (out & Hout & Tout & Sout & Hnil).
  destruct (triple_of ts) as [[s n] p] eqn:Etr.
  exists out, s, n, p.
  rewrite (inflect_parts_delimited fullname ts Hd).
  rewrite (split_fullname_delimited fullname ts Hd), Etr.
  cbn [with_parts] in Hout.
  repeat split; try assumption.
  - intros ->. destruct Hnil as [Hnil _]. rewrite (Hnil eq_refl) in *.
    cbn in Etr. now injection Etr as <- <- <-.
  - intros _.
    now rewrite (inflect_parts_delimited _ out (delimited_join out Tout)).
Qed.

End Parts.

(** ** Suffix sets *)

Ltac pick H := first [exact H | left; pick H | right; pick H].

Ltac in_suffixes :=
  cbn [In]; repeat (first [left; reflexivity | right]).

Section Suffixes.

Variable U : ucd.

Lemma matches_masculine (w : str) :
  matches U w masculine_suffixes
  <-> endswith (lower U w) (u "ович") || endswith (lower U w) (u "йович")
      || endswith (lower U w) (u "евич")
      || endswith (lower U w) (u "льович")
      || endswith (lower U w) (u "євич") = true.
Proof.
  unfold matches, ci_endswith, masculine_suffixes. split.
  - intros (suf & Hin & H). cbn [In] in Hin. rewrite !orb_true_iff.
    repeat (destruct Hin as [<- | Hin]; [pick H|]). destruct Hin.
  - intros H. rewrite !orb_true_iff in H.
    destruct H as [[[[H | H] | H] | H] | H];
      [exists (u "ович") | exists (u "йович") | exists (u "евич")
       | exists (u "льович") | exists (u "євич")];
      (split; [in_suffixes|exact H]).
Qed.

Lemma matches_feminine (w : str) :
  matches U w feminine_suffixes
  <-> endswith (lower U w) (u "івна") || endswith (lower U w) (u "ївна")
      || endswith (lower U w) (u "евна")
      || endswith (lower U w) (u "євна") = true.
Proof.
  unfold matches, ci_endswith, feminine_suffixes. split.
  - intros (suf & Hin & H). cbn [In] in Hin. rewrite !orb_true_iff.
    repeat (destruct Hin as [<- | Hin]; [pick H|]). destruct Hin.
  - intros H. rewrite !orb_true_iff in H.
    destruct H as [[[H | H] | H] | H];
      [exists (u "івна") | exists (u "ївна") | exists (u "евна")
       | exists (u "євна")];
      (split; [in_suffixes|exact H]).
Qed.

(** The two tuples of [dative_patronymic] hold the same suffixes. *)
Lemma male_suf_truthy (low : str) :
  truthy (_endswith_any low
            [u "ович"; u "йович"; u "евич"; u "льович"; u "євич"])
  = endswith low (u "ович") || endswith low (u "йович")
    || endswith low (u "евич") || endswith low (u "льович")
    || endswith low (u "євич").
Proof.
  unfold _endswith_any. cbn [find].
  repeat (match goal with
          | |- context [if ?b then _ else _] => destruct b
          end; [reflexivity|]).
  reflexivity.
Qed.

Lemma fem_suf_truthy (low : str) :
  truthy (_endswith_any low
            [u "івна"; u "ївна"; u "евна"; u "ївна"; u "євна"])
  = endswith low (u "івна") || endswith low (u "ївна")
    || endswith low (u "евна") || endswith low (u "євна").
Proof.
  unfold _endswith_any. cbn [find].
  destruct (endswith low (u "івна")); [reflexivity|].
  destruct (endswith low (u "ївна")); [reflexivity|].
  destruct (endswith low (u "евна")); [reflexivity|].
  destruct (endswith low (u "євна")); reflexivity.
Qed.

Lemma endswith_last_item (low suf : str) (b : char) :
  endswith low suf = true -> last_item suf = Ok b -> last_item low = Ok b.
Proof.
  intros H Hb. apply endswith_iff in H as [pre ->].
  destruct (last_item_ok suf) as [c [Hc Hs]].
  - intros ->. discriminate.
  - rewrite Hs, app_assoc. rewrite last_item_snoc. congruence.
Qed.

(** The soft sign and "й" are no vowels, so the last two tests of the
    default branch of [dative_patronymic] add nothing to the first. *)
Lemma default_branch_test (low : str) (l : char) :
  last_item low = Ok l ->
  negb (_is_vowel U l) || endswith low (u "ь") || endswith low (u "й")
  = negb (_is_vowel U l).
Proof.
  intros Hl.
  destruct (endswith low (u "ь")) eqn:E1.
  - pose proof (endswith_last_item low _ 1100 E1 eq_refl) as E.
    rewrite Hl in E. injection E as ->. reflexivity.
  - destruct (endswith low (u "й")) eqn:E2.
    + pose proof (endswith_last_item low _ 1081 E2 eq_refl) as E.
      rewrite Hl in E. injection E as ->. reflexivity.
    + now rewrite !orb_false_r.
Qed.

End Suffixes.

(** ** The engine is a fixed point on its own output *)

Lemma to_dative_fullname_again (U : ucd) (fullname : str) (io io' : stdout) :
  exists r,
    fst (to_dative_fullname U fullname io) = Ok r
    /\ fst (to_dative_fullname U r io') = Ok r.
Proof.
  destruct (inflect_parts_fixed U fullname)
    as (out & s & n & p & H & _ & Hnil & Hfix).
  unfold to_dative_fullname at 1. rewrite H. cbn [fst].
  destruct out as [|o out].
  - exists fullname. split; [reflexivity|].
    unfold to_dative_fullname. now rewrite (Hnil eq_refl).
  - exists (join (u " ") (o :: out)). split; [reflexivity|].
    unfold to_dative_fullname. rewrite Hfix by discriminate.
    unfold with_parts. now destruct (triple_of (o :: out)) as [[s' n'] p'].
Qed.

(** * The claims *)

(** Apart from the [print], nothing in [to_dative_fullname] raises: on a
    standard output that takes the line, every input string (empty, one
    character, no recognisable suffix) gives a string, whatever the case
    tables outside the written blocks. *)
Lemma to_dative_fullname_total (U : ucd) (fullname : str) (io : stdout) :
  exists r, fst (to_dative_fullname U fullname io) = Ok r.
Proof.
  destruct (inflect_parts_fixed U fullname) as (out & s & n & p & H & _).
  unfold to_dative_fullname. rewrite H. eexists. reflexivity.
Qed.

Lemma surrogate_in_optional (o : option str) :
  existsb is_surrogate (str_of_optional o) = true
  <-> exists t, o = Some t /\ existsb is_surrogate t = true.
Proof.
  destruct o as [t|]; cbn [str_of_optional]; split.
  - intros H. now exists t.
  - intros (t' & E & H). now injection E as ->.
  - intros H. vm_compute in H. discriminate.
  - intros (t' & E & _). discriminate.
Qed.

Lemma utf8_print_ok_false (out : list str) (s n p : option str) :
  utf8_print_ok (mk_printed out s n p) = false
  <-> exists t, (s = Some t \/ n = Some t \/ p = Some t)
                /\ existsb is_surrogate t = true.
Proof.
  unfold utf8_print_ok. cbn [printed_s printed_n printed_p].
  rewrite negb_false_iff, !existsb_app, !orb_true_iff.
  rewrite !surrogate_in_optional. split.
  - intros [(t & E & H) | [(t & E & H) | (t & E & H)]]; exists t; auto.
  - intros (t & [E | [E | E]] & H); [left|right; left|right; right];
      now exists t.
Qed.

Lemma triple_of_firstn (ts : list str) (t : str) :
  (let '(s, n, p) := triple_of ts in
   s = Some t \/ n = Some t \/ p = Some t)
  <-> In t (firstn 3 ts).
Proof.
  destruct ts as [|t1 [|t2 [|t3 ts]]]; cbn [triple_of firstn In]; split;
    intros H;
    repeat match goal with
           | H : _ \/ _ |- _ => destruct H
           | H : Some _ = Some _ |- _ => injection H as <-
           | H : None = Some _ |- _ => discriminate H
           | H : False |- _ => destruct H
           end; subst; auto.
Qed.

(** C1.  The claim does not hold of the code.  The string computation
    never raises, but the [print(out, s, n, p)] at the end of
    [to_dative_fullname] does: on a standard output encoded as UTF-8 the
    call on the one-character name U+D800 raises [UnicodeEncodeError], and
    so does every call on a name with a surrogate in one of its first
    three tokens; no call raises [IndexError], and a call that returns
    returns the string of [to_dative_fullname]. *)
Theorem to_dative_fullname_raises_on_a_surrogate (U : ucd) :
  to_dative_fullname_in utf8_print_ok U [0xD800] = inl UnicodeEncodeError
  /\ (forall fullname,
         to_dative_fullname_in utf8_print_ok U fullname
         = inl UnicodeEncodeError
         <-> exists t, In t (firstn 3 (split fullname))
                       /\ existsb is_surrogate t = true)
  /\ (forall accepts fullname e,
         to_dative_fullname_in accepts U fullname <> inl (Builtin e))
  /\ (forall accepts fullname r io,
         to_dative_fullname_in accepts U fullname = inr r ->
         fst (to_dative_fullname U fullname io) = Ok r).
Proof.
  assert (Hiff : forall fullname,
             to_dative_fullname_in utf8_print_ok U fullname
             = inl UnicodeEncodeError
             <-> exists t, In t (firstn 3 (split fullname))
                           /\ existsb is_surrogate t = true).
  { intros fullname. destruct (delimited_exists fullname) as [ts Hd].
    rewrite (delimited_split fullname ts Hd).
    destruct (parts_of_tokens_ok U ts (delimited_tokens _ _ Hd))
      as (out & Hout & _).
    unfold to_dative_fullname_in.
    rewrite (inflect_parts_delimited U fullname ts Hd), Hout.
    pose proof (fun t => triple_of_firstn ts t) as Ht.
    destruct (triple_of ts) as [[s n] p]. cbn [with_parts].
    pose proof (utf8_print_ok_false out s n p) as Hp.
    destruct (utf8_print_ok (mk_printed out s n p)).
    - split; [discriminate|].
      intros (t & Hin & Hs). apply Ht in Hin.
      destruct Hp as [_ Hp].
      assert (C : true = false) by (apply Hp; now exists t).
      discriminate C.
    - split; [|reflexivity]. intros _.
      destruct Hp as [Hp _]. destruct (Hp eq_refl) as (t & Hin & Hs).
      exists t. split; [now apply Ht|assumption]. }
  split; [|split; [exact Hiff|split]].
  - apply Hiff. exists [0xD800]. split; [now left|reflexivity].
  - intros accepts fullname e.
    destruct (inflect_parts_fixed U fullname) as (out & s & n & p & H & _).
    unfold to_dative_fullname_in. rewrite H.
    now destruct (accepts _).
  - intros accepts fullname r io.
    unfold to_dative_fullname_in, to_dative_fullname.
    destruct (inflect_parts U fullname) as [[[[out s] n] p]|];
      [|discriminate].
    destruct (accepts _); [|discriminate].
    intros E. now injection E as <-.
Qed.

(** C2, as the claim states it, fails on a blank input: the name " " has
    no parts, their join is the empty string, and the engine returns " ". *)
Lemma to_dative_fullname_blank_is_not_a_join :
  split_fullname (u " ") = Ok (None, None, None)
  /\ inflect_parts ucd_plain (u " ") = Ok ([], None, None, None)
  /\ fst (to_dative_fullname ucd_plain (u " ") []) = Ok (u " ")
  /\ fst (to_dative_fullname ucd_plain (u " ") []) <> Ok (join (u " ") []).
Proof.
  repeat split; try reflexivity. vm_compute. discriminate.
Qed.

(** C2 (amended). The output is the single-space join of the inflected
    parts that are present, in the order surname, given name, patronymic;
    when no part is present (no token in the input) the output is the
    input itself, so the empty string gives the empty string. *)
Theorem to_dative_fullname_joins_present_parts
  (U : ucd) (fullname : str) (io : stdout) :
  exists s n p out,
    split_fullname fullname = Ok (s, n, p)
    /\ present_parts U s n p out
    /\ (out = [] <-> (s, n, p) = (None, None, None))
    /\ fst (to_dative_fullname U fullname io)
       = Ok (match out with
             | [] => fullname
             | _ :: _ => join (u " ") out
             end).
Proof.
  destruct (delimited_exists fullname) as [ts Hd].
  pose proof (delimited_tokens fullname ts Hd) as Htok.
  unfold to_dative_fullname.
  rewrite (inflect_parts_delimited U fullname ts Hd).
  rewrite (split_fullname_delimited fullname ts Hd).
  destruct ts as [|t1 [|t2 [|t3 ts]]]; cbn [triple_of parts_of_tokens].
  - exists None, None, None, []. split; [reflexivity|].
    split; [now exists [], [], []|]. split; [tauto|reflexivity].
  - inversion Htok as [|? ? H1 _]; subst.
    destruct (dative_first_name_token U t1 H1) as (n' & Hn & _).
    exists None, (Some t1), None, [n']. split; [reflexivity|].
    split; [exists [], [n'], []; cbn [part_inflected]; repeat split; eauto|].
    rewrite Hn. split; [split; discriminate|reflexivity].
  - inversion Htok as [|? ? H1 Htok']; subst.
    inversion Htok' as [|? ? H2 _]; subst.
    destruct (dative_surname_token U t1 None H1) as (s' & Hs & _).
    destruct (dative_first_name_token U t2 H2) as (n' & Hn & _).
    exists (Some t1), (Some t2), None, [s'; n']. split; [reflexivity|].
    split; [exists [s'], [n'], []; cbn [part_inflected]; repeat split; eauto|].
    rewrite Hs, Hn. split; [split; discriminate|reflexivity].
  - inversion Htok as [|? ? H1 Htok']; subst.
    inversion Htok' as [|? ? H2 Htok'']; subst.
    inversion Htok'' as [|? ? H3 _]; subst.
    destruct (dative_surname_token U t1
                (guess_gender_from_patronymic U (Some t3)) H1)
      as (s' & Hs & _).
    destruct (dative_first_name_token U t2 H2) as (n' & Hn & _).
    destruct (dative_patronymic_token U t3 H3) as (p' & Hp & _).
    exists (Some t1), (Some t2), (Some t3), [s'; n'; p'].
    split; [reflexivity|].
    split; [exists [s'], [n'], [p']; cbn [part_inflected]; repeat split; eauto|].
    cbv zeta. rewrite Hs, Hn, Hp. split; [split; discriminate|reflexivity].
Qed.

(** C3, as the claim states it, fails: the engine does not return
    "Гурову Денису Сергійовичу". *)
Lemma to_dative_fullname_gurov_is_not_denysu :
  fst (to_dative_fullname ucd_plain (u "Гуров Денис Сергійович") [])
  <> Ok (u "Гурову Денису Сергійовичу").
Proof. vm_compute. discriminate. Qed.

(** C3 (amended). On "Гуров Денис Сергійович" the engine returns
    "Гурову Денисові Сергійовичу": a given name that ends in a consonant
    takes "ові". *)
Theorem to_dative_fullname_gurov (U : ucd) (io : stdout) :
  fst (to_dative_fullname U (u "Гуров Денис Сергійович") io)
  = Ok (u "Гурову Денисові Сергійовичу").
Proof. reflexivity. Qed.

(** C4. On "Шевченко Тетяна Іванівна" the engine returns
    "Шевченку Тетяні Іванівні"; the surname, the given name and the
    feminine patronymic are each changed by their rule. *)
Theorem to_dative_fullname_shevchenko (U : ucd) (io : stdout) :
  fst (to_dative_fullname U (u "Шевченко Тетяна Іванівна") io)
  = Ok (u "Шевченку Тетяні Іванівні")
  /\ guess_gender_from_patronymic U (Some (u "Іванівна")) = Some (u "f")
  /\ dative_surname U (u "Шевченко") (Some (u "f")) = Ok (u "Шевченку")
  /\ dative_first_name U (u "Тетяна") = Ok (u "Тетяні")
  /\ dative_patronymic U (u "Іванівна") (Some (u "f")) = Ok (u "Іванівні").
Proof. repeat split; reflexivity. Qed.

(** C5. [split_fullname] never raises and goes by the number of
    whitespace-delimited tokens: none (an empty or blank input) gives three
    [None], one gives the given name alone, two give surname and given
    name, three or more give the first three and drop the rest. *)
Theorem split_fullname_by_tokens (fullname : str) :
  exists ts,
    delimited fullname ts
    /\ (forall ts', delimited fullname ts' -> ts' = ts)
    /\ (ts = [] <-> all_ws fullname)
    /\ split_fullname fullname = Ok (triple_of ts).
Proof.
  destruct (delimited_exists fullname) as [ts Hd].
  assert (Huniq : forall ts', delimited fullname ts' -> ts' = ts).
  { intros ts' Hd'. rewrite <- (delimited_split _ _ Hd).
    symmetry. now apply delimited_split. }
  exists ts. split; [assumption|]. split; [assumption|]. split.
  - split.
    + intros ->. now inversion Hd.
    + intros Hws. symmetry. apply Huniq. now constructor.
  - now apply split_fullname_delimited.
Qed.

(** C6. [guess_gender_from_patronymic] answers "m" exactly when the
    patronymic ends, up to case, with a masculine suffix; "f" exactly when
    it ends with no masculine suffix and with a feminine one; and [None]
    when the patronymic is [None], empty, or ends with neither. *)
Theorem guess_gender_from_patronymic_spec (U : ucd) (p : option str) :
  (guess_gender_from_patronymic U p = Some (u "m")
   <-> exists w, p = Some w /\ matches U w masculine_suffixes)
  /\ (guess_gender_from_patronymic U p = Some (u "f")
      <-> exists w, p = Some w /\ ~ matches U w masculine_suffixes
                    /\ matches U w feminine_suffixes)
  /\ (guess_gender_from_patronymic U p = None
      <-> p = None \/ p = Some []
          \/ exists w, p = Some w /\ ~ matches U w masculine_suffixes
                       /\ ~ matches U w feminine_suffixes).
Proof.
  destruct p as [w|].
  2:{ cbn [guess_gender_from_patronymic]. split; [|split].
      - split; [discriminate|]. intros (w & E & _). discriminate.
      - split; [discriminate|]. intros (w & E & _). discriminate.
      - split; [now left|reflexivity]. }
  pose proof (matches_masculine U w) as Hm.
  pose proof (matches_feminine U w) as Hf.
  unfold guess_gender_from_patronymic.
  destruct w as [|c w].
  - cbn [py_not]. change (lower U []) with (@nil char) in Hm, Hf.
    assert (Nm : ~ matches U [] masculine_suffixes)
      by (intros M; apply Hm in M; vm_compute in M; discriminate).
    assert (Nf : ~ matches U [] feminine_suffixes)
      by (intros M; apply Hf in M; vm_compute in M; discriminate).
    split; [|split].
    + split; [discriminate|].
      intros (w & E & M). injection E as <-. contradiction.
    + split; [discriminate|].
      intros (w & E & _ & M). injection E as <-. contradiction.
    + split; [intros _; right; now left|reflexivity].
  - cbn [py_not]. cbv zeta.
    destruct (endswith (lower U (c :: w)) (u "ович")
              || endswith (lower U (c :: w)) (u "йович")
              || endswith (lower U (c :: w)) (u "евич")
              || endswith (lower U (c :: w)) (u "льович")
              || endswith (lower U (c :: w)) (u "євич")) eqn:Em.
    + assert (M : matches U (c :: w) masculine_suffixes) by now apply Hm.
      split; [|split].
      * split; [intros _; now exists (c :: w)|reflexivity].
      * split; [intros E; vm_compute in E; discriminate|].
        intros (w' & E & Nm & _). injection E as <-. contradiction.
      * split; [discriminate|].
        intros [E | [E | (w' & E & Nm & _)]]; try discriminate.
        injection E as <-. contradiction.
    + assert (Nm : ~ matches U (c :: w) masculine_suffixes)
        by (intros M; apply Hm in M; discriminate).
      destruct (endswith (lower U (c :: w)) (u "івна")
                || endswith (lower U (c :: w)) (u "ївна")
                || endswith (lower U (c :: w)) (u "евна")
                || endswith (lower U (c :: w)) (u "євна")) eqn:Ef.
      * assert (F : matches U (c :: w) feminine_suffixes) by now apply Hf.
        split; [|split].
        -- split; [intros E; vm_compute in E; discriminate|].
           intros (w' & E & M). injection E as <-. contradiction.
        -- split; [intros _; now exists (c :: w)|reflexivity].
        -- split; [discriminate|].
           intros [E | [E | (w' & E & _ & Nf)]]; try discriminate.
           injection E as <-. contradiction.
      * assert (Nf : ~ matches U (c :: w) feminine_suffixes)
          by (intros M; apply Hf in M; discriminate).
        split; [|split].
        -- split; [discriminate|].
           intros (w' & E & M). injection E as <-. contradiction.
        -- split; [discriminate|].
           intros (w' & E & _ & M). injection E as <-. contradiction.
        -- split; [|reflexivity].
           intros _. right. right. now exists (c :: w).
Qed.

(** C7, as the claim states it, fails: "Петр" matches no patronymic
    suffix, no gender is given, and the word comes back as "Петру". *)
Lemma dative_patronymic_petr_is_changed :
  u "Петр" <> []
  /\ ~ matches ucd_plain (u "Петр") masculine_suffixes
  /\ ~ matches ucd_plain (u "Петр") feminine_suffixes
  /\ dative_patronymic ucd_plain (u "Петр") None = Ok (u "Петру")
  /\ dative_patronymic ucd_plain (u "Петр") None <> Ok (u "Петр").
Proof.
  split; [vm_compute; discriminate|].
  split; [intros M; apply matches_masculine in M; vm_compute in M;
          discriminate|].
  split; [intros M; apply matches_feminine in M; vm_compute in M;
          discriminate|].
  split; [reflexivity|vm_compute; discriminate].
Qed.

(** C7 (amended). A non-empty patronymic that matches no masculine and no
    feminine suffix, with no gender given, is returned unchanged when the
    last character of its lower-case form is a vowel; otherwise "у" is
    appended, in the case of the last character of the word. *)
Theorem dative_patronymic_unmatched (U : ucd) (p : str) :
  p <> [] ->
  ~ matches U p masculine_suffixes ->
  ~ matches U p feminine_suffixes ->
  exists l c,
    last_item (lower U p) = Ok l
    /\ last_item p = Ok c
    /\ dative_patronymic U p None
       = Ok (if _is_vowel U l then p else p ++ cased U c (u "у", u "У")).
Proof.
  intros Hne Hm Hf.
  destruct (last_item_ok p Hne) as [c [Hc _]].
  destruct (last_item_lower U p Hne) as [l Hl].
  exists l, c. split; [assumption|]. split; [assumption|].
  unfold dative_patronymic.
  replace (py_not p) with false by (destruct p; [contradiction|reflexivity]).
  cbv zeta. rewrite male_suf_truthy, fem_suf_truthy.
  match goal with
  | |- context [if ?b then _ <- _ ;; Ok (p ++ _) else _] =>
    replace b with false
      by (symmetry; apply not_true_is_false; intros E;
          apply Hm, matches_masculine, E)
  end.
  match goal with
  | |- context [if ?b then _ <- _ ;; Ok (drop_last p ++ _) else _] =>
    replace b with false
      by (symmetry; apply not_true_is_false; intros E;
          apply Hf, matches_feminine, E)
  end.
  rewrite Hl, Hc. cbn [bind].
  rewrite (default_branch_test U _ l Hl).
  now destruct (_is_vowel U l).
Qed.

Lemma dative_patronymic_unmatched_witness :
  exists l c,
    last_item (lower ucd_plain (u "Петр")) = Ok l
    /\ last_item (u "Петр") = Ok c
    /\ dative_patronymic ucd_plain (u "Петр") None
       = Ok (if _is_vowel ucd_plain l then u "Петр"
             else u "Петр" ++ cased ucd_plain c (u "у", u "У")).
Proof.
  apply (dative_patronymic_unmatched ucd_plain (u "Петр")).
  - vm_compute. discriminate.
  - intros M. apply matches_masculine in M. vm_compute in M. discriminate.
  - intros M. apply matches_feminine in M. vm_compute in M. discriminate.
Defined.

(** Inside the written blocks [islower] tells the small letters from the
    capital ones. *)
Lemma islower_block_lower (U : ucd) (c : char) :
  block_is_lower c = true -> islower U c = true.
Proof.
  intros H. unfold islower.
  replace (in_written_blocks c) with true; [assumption|].
  symmetry. unfold in_written_blocks, block_is_lower in *.
  rewrite ?orb_true_iff, ?andb_true_iff, ?N.leb_le, ?N.ltb_lt, ?N.eqb_eq
    in *.
  lia.
Qed.

Lemma islower_block_upper (U : ucd) (c : char) :
  block_is_upper c = true -> islower U c = false.
Proof.
  intros H. unfold islower.
  replace (in_written_blocks c) with true.
  - apply not_true_is_false. intros L.
    unfold block_is_upper, block_is_lower in *.
    rewrite ?orb_true_iff, ?andb_true_iff, ?N.leb_le, ?N.ltb_lt, ?N.eqb_eq
      in *.
    lia.
  - symmetry. unfold in_written_blocks, block_is_upper in *.
    rewrite ?orb_true_iff, ?andb_true_iff, ?N.leb_le, ?N.ltb_lt, ?N.eqb_eq
      in *.
    lia.
Qed.

(** C8. Whenever a rule of [dative_first_name], [dative_surname] or
    [dative_patronymic] fires, the result is the word, whole or without its
    last character and otherwise untouched, followed by an ending whose
    case mirrors the last character of the word: the lower-case ending
    after a lower-case letter, the capitalised ending otherwise, in
    particular after a capital letter.  Each capitalised ending is the
    [capitalize] of the lower-case one. *)
Theorem ending_case_mirrors_last_character (U : ucd) :
  (forall name,
      dative_first_name U name = Ok (strip name)
      \/ exists r, dative_first_name U name = Ok r
                   /\ inflected U (strip name) r)
  /\ (forall surname gender,
         dative_surname U surname gender = Ok (strip surname)
         \/ exists r, dative_surname U surname gender = Ok r
                      /\ inflected U (strip surname) r)
  /\ (forall p gender,
         dative_patronymic U p gender = Ok p
         \/ exists r, dative_patronymic U p gender = Ok r
                      /\ inflected U p r)
  /\ (forall c e, block_is_lower c = true -> cased U c e = fst e)
  /\ (forall c e, block_is_upper c = true -> cased U c e = snd e)
  /\ (forall e, In e endings ->
                lower U (fst e) = fst e /\ capitalize U (fst e) = snd e).
Proof.
  split; [exact (dative_first_name_shape U)|].
  split; [exact (dative_surname_shape U)|].
  split; [exact (dative_patronymic_shape U)|].
  split; [intros c e H; unfold cased; now rewrite islower_block_lower|].
  split; [intros c e H; unfold cased; now rewrite islower_block_upper|].
  intros e He. unfold endings in He. cbn [In] in He.
  repeat (destruct He as [<- | He]; [split; reflexivity|]).
  destruct He.
Qed.

(** C9, as the claim states it, fails: no input makes the engine change
    its own output, whatever the case tables. *)
Lemma to_dative_fullname_has_no_unstable_input :
  ~ exists (U : ucd) (fullname r r' : str) (io io' : stdout),
      fst (to_dative_fullname U fullname io) = Ok r
      /\ fst (to_dative_fullname U r io') = Ok r'
      /\ r' <> r.
Proof.
  intros (U & fullname & r & r' & io & io' & H1 & H2 & Hne).
  destruct (to_dative_fullname_again U fullname io io') as (r0 & E1 & E2).
  rewrite H1 in E1. injection E1 as <-.
  rewrite H2 in E2. injection E2 as E2. contradiction.
Qed.

(** C9 (amended). [to_dative_fullname] is idempotent: run on its own
    output it returns that output again.  It does not look for forms that
    are already inflected; every ending it produces closes the word with a
    vowel on which no rule fires. *)
Theorem to_dative_fullname_idempotent
  (U : ucd) (fullname r : str) (io io' : stdout) :
  fst (to_dative_fullname U fullname io) = Ok r ->
  fst (to_dative_fullname U r io') = Ok r.
Proof.
  intros H.
  destruct (to_dative_fullname_again U fullname io io') as (r0 & E1 & E2).
  rewrite H in E1. injection E1 as <-. exact E2.
Qed.

Lemma to_dative_fullname_idempotent_witness :
  fst (to_dative_fullname ucd_plain (u "Шевченку Тетяні Іванівні") [])
  = Ok (u "Шевченку Тетяні Іванівні").
Proof.
  apply (to_dative_fullname_idempotent ucd_plain
           (u "Шевченко Тетяна Іванівна") _ []).
  vm_compute. reflexivity.
Defined.

(** C10.  The claim does not hold of the code: every call of
    [to_dative_fullname] appends one line to standard output, the
    [print(out, s, n, p)] at the end of the function. *)
Theorem to_dative_fullname_prints (U : ucd) (fullname : str) (io : stdout) :
  exists out s n p,
    inflect_parts U fullname = Ok (out, s, n, p)
    /\ snd (to_dative_fullname U fullname io) = io ++ [mk_printed out s n p]
    /\ snd (to_dative_fullname U fullname io) <> io.
Proof.
  destruct (inflect_parts_fixed U fullname) as (out & s & n & p & H & _).
  exists out, s, n, p. unfold to_dative_fullname. rewrite H. cbn [snd].
  split; [reflexivity|]. split; [reflexivity|].
  intros E. apply (f_equal (@length printed)) in E.
  rewrite length_app in E. cbn [length] in E. lia.
Qed.

(** * Further properties of the code *)

(** ** The rules, read by the last character *)

Lemma last_item_nonempty (s : str) (c : char) : last_item s = Ok c -> s <> [].
Proof. intros H ->. discriminate. Qed.

Lemma endswith_single (low : str) (a l : char) :
  last_item low = Ok l -> endswith low [a] = (l =? a).
Proof.
  intros Hl.
  destruct (last_item_ok low (last_item_nonempty low l Hl)) as [l' [Hl' Hs]].
  assert (l' = l) by congruence. subst l'. rewrite Hs.
  destruct (l =? a) eqn:E.
  - apply N.eqb_eq in E. subst a. apply endswith_iff. now exists (drop_last low).
  - apply endswith_snoc_differs. unfold last_differs. cbn [last_item].
    rewrite N.eqb_sym, E. reflexivity.
Qed.

Lemma py_not_false (s : str) : s <> [] -> py_not s = false.
Proof. now destruct s. Qed.

Lemma cased_length (U : ucd) (c : char) (e : str * str) :
  In e endings -> (1 <= length (cased U c e) <= 3)%nat.
Proof.
  intros He. unfold cased. unfold endings in He. cbn [In] in He.
  repeat (destruct He as [<- | He];
          [destruct (islower U c); cbv; lia|]).
  destruct He.
Qed.

Lemma drop_last_length (s : str) (c : char) :
  last_item s = Ok c -> length s = S (length (drop_last s)).
Proof.
  intros H.
  destruct (last_item_ok s (last_item_nonempty s c H)) as [c' [_ Hs]].
  rewrite Hs at 1. rewrite length_app. cbn [length]. lia.
Qed.

Lemma inflected_stem (U : ucd) (w r : str) :
  inflected U w r ->
  exists tail,
    r = drop_last w ++ tail
    /\ (1 <= length tail <= 4)%nat
    /\ (length w <= length r <= length w + 3)%nat.
Proof.
  intros (c & e & stem & Hc & He & Hstem & ->).
  pose proof (cased_length U c e He) as Hlen.
  pose proof (drop_last_length w c Hc) as Hw.
  destruct (last_item_ok w (last_item_nonempty w c Hc)) as [c' [_ Hs]].
  destruct Hstem as [-> | ->].
  - exists ([c'] ++ cased U c e). split.
    + rewrite app_assoc. now rewrite <- Hs.
    + rewrite !length_app. cbn [length]. lia.
  - exists (cased U c e). split; [reflexivity|].
    rewrite !length_app. lia.
Qed.

Lemma unchanged_stem (w : str) :
  exists tail,
    w = drop_last w ++ tail
    /\ (length tail <= 4)%nat
    /\ (length w <= length w <= length w + 3)%nat.
Proof.
  destruct w as [|a w].
  - exists []. repeat split; cbn; lia.
  - destruct (last_item_ok (a :: w)) as [c [_ Hs]]; [discriminate|].
    exists [c]. split; [assumption|]. cbn [length]. lia.
Qed.

(** X1. [dative_surname] looks at nothing but the last character of the
    lower-case form of the stripped surname: "о" gives "у" (the tests for
    "енко" and "ко" never change the outcome), "а" gives "і", "я" gives
    "ї", "й" gives "ю", any other character that is no vowel has "у"
    appended, and any other vowel leaves the word as it is. *)
Theorem dative_surname_by_last
  (U : ucd) (surname : str) (gender : option str) (l c : char) :
  last_item (lower U (strip surname)) = Ok l ->
  last_item (strip surname) = Ok c ->
  dative_surname U surname gender
  = Ok (surname_by_last U (strip surname) l c).
Proof.
  intros Hl Hc. unfold dative_surname, surname_by_last.
  set (s := strip surname) in *. set (low := lower U s) in *.
  rewrite (py_not_false s (last_item_nonempty s c Hc)), Hc, Hl. cbn [bind].
  replace (endswith low (u "о")) with (l =? chr "о")
    by (symmetry; apply (endswith_single low _ l Hl)).
  replace (endswith low (u "а")) with (l =? chr "а")
    by (symmetry; apply (endswith_single low _ l Hl)).
  replace (endswith low (u "я")) with (l =? chr "я")
    by (symmetry; apply (endswith_single low _ l Hl)).
  replace (endswith low (u "й")) with (l =? chr "й")
    by (symmetry; apply (endswith_single low _ l Hl)).
  replace (endswith low (u "ь")) with (l =? chr "ь")
    by (symmetry; apply (endswith_single low _ l Hl)).
  destruct (l =? chr "о") eqn:Eo.
  - destruct (endswith low (u "енко")); [reflexivity|].
    now destruct (endswith low (u "ко")).
  - assert (E1 : endswith low (u "енко") = false).
    { destruct (endswith low (u "енко")) eqn:E; [|reflexivity].
      pose proof (endswith_last_item low _ (chr "о") E eq_refl) as E'.
      rewrite Hl in E'. injection E' as ->. discriminate. }
    assert (E2 : endswith low (u "ко") = false).
    { destruct (endswith low (u "ко")) eqn:E; [|reflexivity].
      pose proof (endswith_last_item low _ (chr "о") E eq_refl) as E'.
      rewrite Hl in E'. injection E' as ->. discriminate. }
    rewrite E1, E2.
    destruct (l =? chr "а"); [reflexivity|].
    destruct (l =? chr "я"); [reflexivity|].
    destruct (l =? chr "й"); [reflexivity|].
    destruct (l =? chr "ь") eqn:Es.
    + apply N.eqb_eq in Es. subst l. reflexivity.
    + now destruct (_is_vowel U l).
Qed.

Lemma dative_surname_by_last_witness :
  dative_surname ucd_plain (u " Шевченко ") None
  = Ok (surname_by_last ucd_plain (strip (u " Шевченко "))
          (chr "о") (chr "о")).
Proof.
  apply (dative_surname_by_last ucd_plain (u " Шевченко ") None);
    vm_compute; reflexivity.
Defined.

(** X2. [dative_first_name] looks at nothing but the last character of the
    lower-case form of the stripped name: "а" gives "і", "я" gives "ї",
    "й" gives "ю", "о" gives "ові", any other character that is no vowel
    (the soft sign among them) has "ові" appended, and any other vowel
    leaves the name as it is. *)
Theorem dative_first_name_by_last (U : ucd) (name : str) (l c : char) :
  last_item (lower U (strip name)) = Ok l ->
  last_item (strip name) = Ok c ->
  dative_first_name U name = Ok (first_name_by_last U (strip name) l c).
Proof.
  intros Hl Hc. unfold dative_first_name, first_name_by_last.
  set (n := strip name) in *. set (low := lower U n) in *.
  rewrite (py_not_false n (last_item_nonempty n c Hc)), Hc, Hl. cbn [bind].
  replace (endswith low (u "а")) with (l =? chr "а")
    by (symmetry; apply (endswith_single low _ l Hl)).
  replace (endswith low (u "я")) with (l =? chr "я")
    by (symmetry; apply (endswith_single low _ l Hl)).
  replace (endswith low (u "й")) with (l =? chr "й")
    by (symmetry; apply (endswith_single low _ l Hl)).
  replace (endswith low (u "о")) with (l =? chr "о")
    by (symmetry; apply (endswith_single low _ l Hl)).
  replace (endswith low (u "ь")) with (l =? chr "ь")
    by (symmetry; apply (endswith_single low _ l Hl)).
  destruct (l =? chr "а"); [reflexivity|].
  destruct (l =? chr "я"); [reflexivity|].
  destruct (l =? chr "й"); [reflexivity|].
  destruct (l =? chr "о"); [reflexivity|].
  destruct (l =? chr "ь") eqn:Es.
  - apply N.eqb_eq in Es. subst l. reflexivity.
  - now destruct (_is_vowel U l).
Qed.

Lemma dative_first_name_by_last_witness :
  dative_first_name ucd_plain (u "Олександр")
  = Ok (first_name_by_last ucd_plain (strip (u "Олександр"))
          (chr "р") (chr "р")).
Proof.
  apply (dative_first_name_by_last ucd_plain (u "Олександр"));
    vm_compute; reflexivity.
Defined.

(** ** Patronymics and gender *)

(** X3. In [dative_patronymic] the suffix of the word comes before the
    gender passed in: a word with a masculine suffix has "у" appended and a
    word with a feminine suffix (and no masculine one) has its last
    character replaced by "і", whatever the gender argument. *)
Theorem dative_patronymic_suffix_before_gender
  (U : ucd) (p : str) (gender : option str) (c : char) :
  last_item p = Ok c ->
  (matches U p masculine_suffixes ->
   dative_patronymic U p gender = Ok (p ++ cased U c (u "у", u "У")))
  /\ (~ matches U p masculine_suffixes ->
      matches U p feminine_suffixes ->
      dative_patronymic U p gender
      = Ok (drop_last p ++ cased U c (u "і", u "І"))).
Proof.
  intros Hc.
  pose proof (py_not_false p (last_item_nonempty p c Hc)) as Hp.
  split.
  - intros M. apply matches_masculine in M.
    unfold dative_patronymic. rewrite Hp. cbv zeta.
    rewrite male_suf_truthy, M, Hc. reflexivity.
  - intros Nm F. apply matches_feminine in F.
    unfold dative_patronymic. rewrite Hp. cbv zeta.
    rewrite male_suf_truthy, fem_suf_truthy, F, Hc.
    match goal with
    | |- context [if ?b then _ <- _ ;; Ok (p ++ _) else _] =>
      replace b with false
        by (symmetry; apply not_true_is_false; intros E;
            apply Nm, matches_masculine, E)
    end.
    reflexivity.
Qed.

Lemma dative_patronymic_suffix_before_gender_witness :
  dative_patronymic ucd_plain (u "Сергійович") (Some (u "f"))
  = Ok (u "Сергійович" ++ cased ucd_plain (chr "ч") (u "у", u "У"))
  /\ dative_patronymic ucd_plain (u "Іванівна") (Some (u "m"))
     = Ok (drop_last (u "Іванівна")
           ++ cased ucd_plain (chr "а") (u "і", u "І")).
Proof.
  split.
  - refine (proj1 (dative_patronymic_suffix_before_gender ucd_plain
                     (u "Сергійович") (Some (u "f")) (chr "ч") _) _).
    + vm_compute. reflexivity.
    + apply matches_masculine. vm_compute. reflexivity.
  - refine (proj2 (dative_patronymic_suffix_before_gender ucd_plain
                     (u "Іванівна") (Some (u "m")) (chr "а") _) _ _).
    + vm_compute. reflexivity.
    + intros M. apply matches_masculine in M. vm_compute in M.
      discriminate.
    + apply matches_feminine. vm_compute. reflexivity.
Defined.

(** X4. The gender guessed from the patronymic never changes what the
    engine returns: [dative_surname] does not look at its gender argument,
    and [dative_patronymic] gives the same result with the guessed gender
    as with none, because a patronymic whose gender can be guessed is
    already handled by its suffix. *)
Theorem guessed_gender_changes_nothing
  (U : ucd) (surname p : str) (gender : option str) :
  dative_surname U surname gender = dative_surname U surname None
  /\ dative_patronymic U p (guess_gender_from_patronymic U (Some p))
     = dative_patronymic U p None.
Proof.
  split; [reflexivity|].
  unfold dative_patronymic, guess_gender_from_patronymic.
  destruct (py_not p); [reflexivity|]. cbv zeta.
  rewrite male_suf_truthy, fem_suf_truthy.
  destruct (endswith (lower U p) (u "ович")
            || endswith (lower U p) (u "йович")
            || endswith (lower U p) (u "евич")
            || endswith (lower U p) (u "льович")
            || endswith (lower U p) (u "євич")); [reflexivity|].
  destruct (endswith (lower U p) (u "івна")
            || endswith (lower U p) (u "ївна")
            || endswith (lower U p) (u "евна")
            || endswith (lower U p) (u "євна")); reflexivity.
Qed.

(** ** What the rules leave of a word *)

(** X5. Each of the three rules returns the word, stripped by the two
    that strip, with nothing but its end changed: all characters before
    the last one are kept in place, and the result is never shorter than
    the word and at most three characters longer. *)
Theorem rules_change_only_the_end (U : ucd) :
  (forall name, exists r tail,
      dative_first_name U name = Ok r
      /\ r = drop_last (strip name) ++ tail
      /\ (length tail <= 4)%nat
      /\ (length (strip name) <= length r <= length (strip name) + 3)%nat)
  /\ (forall surname gender, exists r tail,
         dative_surname U surname gender = Ok r
         /\ r = drop_last (strip surname) ++ tail
         /\ (length tail <= 4)%nat
         /\ (length (strip surname) <= length r
             <= length (strip surname) + 3)%nat)
  /\ (forall p gender, exists r tail,
         dative_patronymic U p gender = Ok r
         /\ r = drop_last p ++ tail
         /\ (length tail <= 4)%nat
         /\ (length p <= length r <= length p + 3)%nat).
Proof.
  split; [|split].
  - intros name.
    destruct (dative_first_name_shape U name) as [H | (r & H & Hi)].
    + destruct (unchanged_stem (strip name)) as (tail & E & L).
      exists (strip name), tail. now split.
    + destruct (inflected_stem U _ r Hi) as (tail & E & L & B).
      exists r, tail. repeat split; try assumption; lia.
  - intros surname gender.
    destruct (dative_surname_shape U surname gender) as [H | (r & H & Hi)].
    + destruct (unchanged_stem (strip surname)) as (tail & E & L).
      exists (strip surname), tail. now split.
    + destruct (inflected_stem U _ r Hi) as (tail & E & L & B).
      exists r, tail. repeat split; try assumption; lia.
  - intros p gender.
    destruct (dative_patronymic_shape U p gender) as [H | (r & H & Hi)].
    + destruct (unchanged_stem p) as (tail & E & L).
      exists p, tail. now split.
    + destruct (inflected_stem U _ r Hi) as (tail & E & L & B).
      exists r, tail. repeat split; try assumption; lia.
Qed.

(** ** Whitespace around a word *)

Lemma lstrip_all_ws (ws : str) : all_ws ws -> lstrip ws = [].
Proof.
  induction 1 as [|c ws Hc _ IH]; [reflexivity|]. simpl. now rewrite Hc.
Qed.

Lemma lstrip_ws_prefix (ws s : str) : all_ws ws -> lstrip (ws ++ s) = lstrip s.
Proof.
  induction 1 as [|c ws Hc _ IH]; [reflexivity|]. simpl. now rewrite Hc.
Qed.

Lemma rstrip_ws_suffix (s ws : str) : all_ws ws -> rstrip (s ++ ws) = rstrip s.
Proof.
  intros H. unfold rstrip. rewrite rev_app_distr.
  rewrite lstrip_ws_prefix by now apply Forall_rev. reflexivity.
Qed.

Lemma strip_ws_suffix (s ws : str) : all_ws ws -> strip (s ++ ws) = strip s.
Proof.
  intros H. unfold strip. induction s as [|c s IH].
  - cbn [app]. rewrite (lstrip_all_ws ws H). reflexivity.
  - cbn [app lstrip]. destruct (isspace c); [exact IH|].
    now apply (rstrip_ws_suffix (c :: s)).
Qed.

Lemma strip_around (ws1 s ws2 : str) :
  all_ws ws1 -> all_ws ws2 -> strip (ws1 ++ s ++ ws2) = strip s.
Proof.
  intros H1 H2. rewrite app_assoc, (strip_ws_suffix _ ws2 H2).
  unfold strip. now rewrite lstrip_ws_prefix.
Qed.

(** X6. [dative_first_name] and [dative_surname] take no notice of
    whitespace before and after the word. *)
Theorem rules_ignore_whitespace_around
  (U : ucd) (ws1 word ws2 : str) (gender : option str) :
  all_ws ws1 -> all_ws ws2 ->
  dative_first_name U (ws1 ++ word ++ ws2) = dative_first_name U word
  /\ dative_surname U (ws1 ++ word ++ ws2) gender
     = dative_surname U word gender.
Proof.
  intros H1 H2. unfold dative_first_name, dative_surname.
  now rewrite (strip_around ws1 word ws2 H1 H2).
Qed.

Lemma rules_ignore_whitespace_around_witness :
  dative_first_name ucd_plain (u "  " ++ u "Тетяна" ++ u " ")
  = dative_first_name ucd_plain (u "Тетяна")
  /\ dative_surname ucd_plain (u "  " ++ u "Тетяна" ++ u " ") None
     = dative_surname ucd_plain (u "Тетяна") None.
Proof.
  apply (rules_ignore_whitespace_around ucd_plain (u "  ") (u "Тетяна")
           (u " ") None);
    vm_compute; repeat constructor.
Defined.

(** ** Splitting and joining *)

Lemma delimited_self (s : str) : delimited s (split s).
Proof.
  destruct (delimited_exists s) as [ts H].
  now rewrite (delimited_split s ts H).
Qed.

Lemma concat_split_from (cur s : str) :
  concat (split_from cur s)
  = rev cur ++ filter (fun c => negb (isspace c)) s.
Proof.
  revert cur. induction s as [|c s IH]; intros cur.
  - simpl. destruct cur; simpl; now rewrite ?app_nil_r.
  - simpl. destruct (isspace c); simpl.
    + destruct cur; simpl; now rewrite IH.
    + rewrite IH. simpl. now rewrite <- app_assoc.
Qed.

(** X7. Splitting is the inverse of joining with single spaces: the
    tokens of [" ".join(ts)] are [ts] again, and [split_fullname] assigns
    them to surname, given name and patronymic by their number. *)
Theorem split_join_round_trip (ts : list str) :
  Forall token ts ->
  split (join (u " ") ts) = ts
  /\ split_fullname (join (u " ") ts) = Ok (triple_of ts).
Proof.
  intros H. pose proof (delimited_join ts H) as Hd. split.
  - now apply delimited_split.
  - now apply split_fullname_delimited.
Qed.

Lemma split_join_round_trip_witness :
  split (join (u " ") [u "Шевченко"; u "Тетяна"])
  = [u "Шевченко"; u "Тетяна"]
  /\ split_fullname (join (u " ") [u "Шевченко"; u "Тетяна"])
     = Ok (triple_of [u "Шевченко"; u "Тетяна"]).
Proof.
  apply (split_join_round_trip [u "Шевченко"; u "Тетяна"]).
  repeat (apply Forall_cons;
          [split; [vm_compute; discriminate|vm_compute; repeat constructor]|]).
  apply Forall_nil.
Defined.

(** X8. The parts [split_fullname] works on lose nothing but whitespace:
    they are non-empty and free of whitespace, and put end to end they are
    the input with its whitespace characters taken out.  The [strip()]
    before the [split()] and the test [if p] after it change nothing. *)
Theorem split_keeps_all_but_whitespace (fullname : str) :
  let parts :=
    filter (fun p => negb (py_not p)) (split (strip fullname)) in
  parts = split fullname
  /\ Forall token parts
  /\ concat parts = filter (fun c => negb (isspace c)) fullname.
Proof.
  cbv zeta. pose proof (delimited_self fullname) as Hd.
  pose proof (delimited_tokens _ _ Hd) as HT.
  rewrite split_strip, (filter_tokens _ HT).
  split; [reflexivity|]. split; [assumption|].
  unfold split. now rewrite concat_split_from.
Qed.

(** ** The engine on whole names *)

Lemma parts_of_tokens_firstn (U : ucd) (ts : list str) :
  parts_of_tokens U ts = parts_of_tokens U (firstn 3 ts).
Proof. destruct ts as [|t1 [|t2 [|t3 ts]]]; reflexivity. Qed.

Lemma parts_of_tokens_length (U : ucd) (ts out : list str)
  (s n p : option str) :
  parts_of_tokens U ts = Ok (out, s, n, p) ->
  length out = Nat.min 3 (length ts).
Proof.
  destruct ts as [|t1 [|t2 [|t3 ts]]]; cbn [parts_of_tokens]; cbv zeta;
    unfold bind;
    repeat match goal with
           | |- context [match ?x with Ok _ => _ | Raise _ => _ end] =>
             destruct x; try discriminate
           end;
    intros E; injection E as <- <- <- <-; reflexivity.
Qed.

Lemma join_tokens_nonempty (sep : str) (out : list str) :
  Forall token out -> out <> [] -> join sep out <> [].
Proof.
  intros [|t out' [Hne _] _] Hout; [contradiction|].
  destruct t; [contradiction|]. destruct out'; discriminate.
Qed.

(** What the engine returns on a name that has tokens. *)
Lemma to_dative_fullname_on_tokens (U : ucd) (fullname : str) (io : stdout) :
  split fullname <> [] ->
  exists out s n p,
    parts_of_tokens U (split fullname) = Ok (out, s, n, p)
    /\ Forall token out
    /\ out <> []
    /\ fst (to_dative_fullname U fullname io) = Ok (join (u " ") out).
Proof.
  intros Hne. pose proof (delimited_self fullname) as Hd.
  destruct (parts_of_tokens_ok U (split fullname)
              (delimited_tokens _ _ Hd)) as (out & Hout & Tout & _ & Hnil).
  unfold with_parts in Hout.
  destruct (triple_of (split fullname)) as [[s n] p].
  exists out, s, n, p. split; [assumption|]. split; [assumption|].
  assert (Ho : out <> []) by (intros E; now apply Hne, Hnil).
  split; [assumption|].
  unfold to_dative_fullname.
  rewrite (inflect_parts_delimited U fullname _ Hd), Hout. cbn [fst].
  now destruct out.
Qed.

Lemma rstrip_snoc (a : str) (c : char) :
  isspace c = false -> rstrip (a ++ [c]) = a ++ [c].
Proof.
  intros Hc. unfold rstrip. rewrite rev_app_distr. cbn [rev app lstrip].
  rewrite Hc. cbn [rev]. now rewrite rev_involutive.
Qed.

Lemma join_tokens_ends (sep : str) (ts : list str) :
  Forall token ts -> ts <> [] ->
  exists a c, join sep ts = a ++ [c] /\ isspace c = false.
Proof.
  induction 1 as [|t ts [Hne Hw] HT IH]; intros Hn; [contradiction|].
  destruct ts as [|t' ts].
  - destruct (snoc_of_nonempty t Hne) as [c Hc].
    exists (drop_last t), c. split; [exact Hc|].
    rewrite Hc in Hw. apply Forall_app in Hw as [_ Hw]. now inversion Hw.
  - destruct IH as (a & c & E & Hc); [discriminate|].
    exists (t ++ sep ++ a), c. split; [|assumption].
    change (join sep (t :: t' :: ts)) with (t ++ sep ++ join sep (t' :: ts)).
    now rewrite E, !app_assoc.
Qed.

Lemma strip_join_tokens (ts : list str) :
  Forall token ts -> ts <> [] -> strip (join (u " ") ts) = join (u " ") ts.
Proof.
  intros HT Hn. unfold strip.
  assert (Hl : lstrip (join (u " ") ts) = join (u " ") ts).
  { inversion HT as [|t ts' [Hne Hw] _]; subst; [contradiction|].
    destruct t as [|c t]; [contradiction|].
    inversion Hw as [|? ? Hc _]; subst.
    destruct ts'; cbn [join app lstrip]; now rewrite Hc. }
  rewrite Hl.
  destruct (join_tokens_ends (u " ") ts HT Hn) as (a & c & -> & Hc).
  now apply rstrip_snoc.
Qed.

(** X9. On a name with at least one token the engine returns its parts
    joined by single spaces and nothing else: the result has exactly as
    many tokens as the input, three at most, and no whitespace before,
    after or doubled between them. *)
Theorem to_dative_fullname_output_is_normalised
  (U : ucd) (fullname : str) (io : stdout) :
  split fullname <> [] ->
  exists r,
    fst (to_dative_fullname U fullname io) = Ok r
    /\ length (split r) = Nat.min 3 (length (split fullname))
    /\ join (u " ") (split r) = r
    /\ strip r = r.
Proof.
  intros Hne.
  destruct (to_dative_fullname_on_tokens U fullname io Hne)
    as (out & s & n & p & Hout & Tout & Ho & Hr).
  exists (join (u " ") out). split; [assumption|].
  pose proof (delimited_split _ _ (delimited_join out Tout)) as Hs.
  rewrite Hs. split; [now apply (parts_of_tokens_length U _ _ s n p)|].
  split; [reflexivity|].
  now apply strip_join_tokens.
Qed.

Lemma to_dative_fullname_output_is_normalised_witness :
  exists r,
    fst (to_dative_fullname ucd_plain (u "  Шевченко   Тетяна ") []) = Ok r
    /\ length (split r)
       = Nat.min 3 (length (split (u "  Шевченко   Тетяна ")))
    /\ join (u " ") (split r) = r
    /\ strip r = r.
Proof.
  apply (to_dative_fullname_output_is_normalised ucd_plain
           (u "  Шевченко   Тетяна ") []).
  vm_compute. discriminate.
Defined.

(** X10. The engine reads a name through its first three tokens only: two
    names with the same first three tokens, however they are spaced and
    whatever follows, get the same result. *)
Theorem to_dative_fullname_reads_three_tokens
  (U : ucd) (name1 name2 : str) (io1 io2 : stdout) :
  split name1 <> [] ->
  firstn 3 (split name1) = firstn 3 (split name2) ->
  fst (to_dative_fullname U name1 io1) = fst (to_dative_fullname U name2 io2).
Proof.
  intros Hne Heq.
  assert (Hne2 : split name2 <> []).
  { intros E. rewrite E in Heq. destruct (split name1); [auto|discriminate]. }
  destruct (to_dative_fullname_on_tokens U name1 io1 Hne)
    as (out1 & s1 & n1 & p1 & H1 & _ & _ & R1).
  destruct (to_dative_fullname_on_tokens U name2 io2 Hne2)
    as (out2 & s2 & n2 & p2 & H2 & _ & _ & R2).
  rewrite R1, R2.
  rewrite parts_of_tokens_firstn, Heq, <- parts_of_tokens_firstn, H2 in H1.
  injection H1 as -> _ _ _. reflexivity.
Qed.

Lemma to_dative_fullname_reads_three_tokens_witness :
  fst (to_dative_fullname ucd_plain
         (u " Шевченко  Тетяна Іванівна молодша ") [])
  = fst (to_dative_fullname ucd_plain (u "Шевченко Тетяна Іванівна") []).
Proof.
  apply to_dative_fullname_reads_three_tokens.
  - vm_compute. discriminate.
  - vm_compute. reflexivity.
Defined.

(** X11. The engine returns the empty string for the empty string
    only. *)
Theorem to_dative_fullname_empty_iff (U : ucd) (fullname : str) (io : stdout) :
  fst (to_dative_fullname U fullname io) = Ok [] <-> fullname = [].
Proof.
  split.
  - intros H. destruct (split fullname) as [|t ts] eqn:Es.
    + pose proof (delimited_self fullname) as Hd. rewrite Es in Hd.
      unfold to_dative_fullname in H.
      rewrite (inflect_parts_delimited U fullname [] Hd) in H.
      cbn in H. now injection H.
    + destruct (to_dative_fullname_on_tokens U fullname io)
        as (out & s & n & p & _ & Tout & Ho & Hr);
        [rewrite Es; discriminate|].
      rewrite Hr in H. injection H as H.
      now apply join_tokens_nonempty in H.
  - intros ->. reflexivity.
Qed.

(** ** The suffix search *)

(** X12. [_endswith_any] returns the first suffix of the tuple that the
    string ends with, and [None] when it ends with none of them. *)
Theorem _endswith_any_first_match (s : str) (suffixes : list str) :
  match _endswith_any s suffixes with
  | Some suf =>
    exists before after,
      suffixes = before ++ suf :: after
      /\ endswith s suf = true
      /\ Forall (fun x => endswith s x = false) before
  | None => Forall (fun x => endswith s x = false) suffixes
  end.
Proof.
  unfold _endswith_any. induction suffixes as [|x l IH]; cbn [find].
  - constructor.
  - destruct (endswith s x) eqn:E.
    + exists [], l. repeat split; [assumption|constructor].
    + destruct (find (endswith s) l) as [suf|].
      * destruct IH as (before & after & -> & Hs & Hb).
        exists (x :: before), after. repeat split; try assumption.
        now constructor.
      * now constructor.
Qed.

(** ** Reading the names *)

Lemma strip_decomp (s : str) :
  exists ws1 ws2, all_ws ws1 /\ all_ws ws2 /\ s = ws1 ++ strip s ++ ws2.
Proof.
  destruct (lstrip_decomp s) as [ws1 [H1 E1]].
  destruct (rstrip_decomp (lstrip s)) as [ws2 [H2 E2]].
  exists ws1, ws2. repeat split; try assumption.
  unfold strip. now rewrite <- E2.
Qed.

Lemma strip_idempotent (s : str) : strip (strip s) = strip s.
Proof.
  destruct (strip_decomp s) as (ws1 & ws2 & H1 & H2 & E).
  rewrite E at 2. symmetry. now apply strip_around.
Qed.

Lemma strip_all_ws (s : str) : all_ws s -> strip s = [].
Proof. intros H. unfold strip. now rewrite (lstrip_all_ws s H). Qed.

Lemma split_nonblank (s : str) : strip s <> [] -> split s <> [].
Proof.
  intros H E. apply H. apply strip_all_ws.
  pose proof (delimited_self s) as Hd. rewrite E in Hd. now inversion Hd.
Qed.

(** A name as [read_names_from_excel] returns them: not empty, stripped,
    with a token in it. *)
Lemma stripped_name (s : str) :
  strip s <> [] ->
  strip s <> [] /\ strip (strip s) = strip s /\ split (strip s) <> [].
Proof.
  intros H. split; [assumption|]. split; [apply strip_idempotent|].
  apply split_nonblank. now rewrite strip_idempotent.
Qed.

Lemma read_names_loop_spec (rows : list (list cell_value)) (names : list str) :
  match read_names_loop rows names with
  | Ok names' =>
    names'
    = names
      ++ map (fun val => strip (cell_str val))
           (filter (fun val => cell_truth val
                               && negb (py_not (strip (cell_str val))))
              (map (hd CellNone) rows))
    /\ Forall (fun row => row <> []) rows
  | Raise _ => Exists (fun row => row = []) rows
  end.
Proof.
  revert names. induction rows as [|row rows IH]; intros names.
  - cbn. now rewrite app_nil_r.
  - cbn [read_names_loop]. destruct row as [|val row].
    + cbn. now constructor.
    + cbn [list_item nth_error bind map hd filter].
      destruct (cell_truth val && negb (py_not (strip (cell_str val)))).
      * specialize (IH (names ++ [strip (cell_str val)])).
        destruct (read_names_loop rows _).
        -- destruct IH as [-> HF]. split.
           ++ cbn [map]. now rewrite <- app_assoc.
           ++ constructor; [discriminate|assumption].
        -- now constructor.
      * specialize (IH names).
        destruct (read_names_loop rows _).
        -- destruct IH as [-> HF]. split; [reflexivity|].
           constructor; [discriminate|assumption].
        -- now constructor.
Qed.

(** X13. [read_names_from_excel] returns, in the order of the rows, the
    stripped text of every first cell that is true and not blank, and
    nothing else; every name it returns is non-empty, has no whitespace
    around it and holds at least one token.  It raises only when a row has
    no first cell. *)
Theorem read_names_from_excel_spec (rows : list (list cell_value)) :
  match read_names_from_excel rows with
  | Ok names =>
    names
    = map (fun val => strip (cell_str val))
        (filter (fun val => cell_truth val
                            && negb (py_not (strip (cell_str val))))
           (map (hd CellNone) rows))
    /\ Forall (fun row => row <> []) rows
    /\ Forall (fun name => name <> [] /\ strip name = name
                           /\ split name <> []) names
  | Raise _ => Exists (fun row => row = []) rows
  end.
Proof.
  unfold read_names_from_excel.
  pose proof (read_names_loop_spec rows []) as H.
  destruct (read_names_loop rows []) as [names|]; [|assumption].
  destruct H as [-> HF]. cbn [app]. split; [reflexivity|].
  split; [assumption|].
  apply Forall_forall. intros name Hin.
  apply in_map_iff in Hin as (val & <- & Hval).
  apply filter_In in Hval as [_ Hval].
  apply andb_true_iff in Hval as [_ Hval].
  apply stripped_name. intros E. rewrite E in Hval. discriminate.
Qed.

(** ** The files of [generate_separate_files] *)

Lemma separate_file_name_split (i : nat) (person : str) :
  separate_file_name i person
  = Ok (format_03d i ++ u "_"
        ++ match split person with
           | t :: _ => t
           | [] => format_d i
           end
        ++ u ".docx").
Proof.
  unfold separate_file_name.
  pose proof (delimited_self person) as Hd.
  rewrite (split_fullname_delimited person _ Hd).
  pose proof (delimited_tokens person _ Hd) as HT.
  destruct (split person) as [|t1 [|t2 [|t3 ts]]];
    cbn [triple_of bind]; try reflexivity;
    inversion HT as [|? ? [H1 _] _]; subst;
    (destruct t1; [contradiction|reflexivity]).
Qed.

(** X14. The label in a file name of [generate_separate_files] is the
    first token of the person's name, the surname when there are two
    tokens or more and the given name when there is one; the index stands
    in only for a name without a token. *)
Theorem separate_file_name_label (i : nat) (person : str) :
  separate_file_name i person
  = Ok (format_03d i ++ u "_"
        ++ match split person with
           | t :: _ => t
           | [] => format_d i
           end
        ++ u ".docx")
  /\ (forall s n p,
         split_fullname person = Ok (s, n, p) ->
         match split person with
         | [_] => s = None /\ n = Some (hd [] (split person))
         | _ :: _ :: _ => s = Some (hd [] (split person))
         | [] => s = None /\ n = None
         end).
Proof.
  split; [apply separate_file_name_split|].
  intros s n p H.
  rewrite (split_fullname_delimited person _ (delimited_self person)) in H.
  destruct (split person) as [|t1 [|t2 [|t3 ts]]]; cbn in H;
    injection H as <- <- <-; auto.
Qed.

Lemma uint_chars_digits (d : Decimal.uint) :
  Forall (fun c => is_digit c = true) (uint_chars d).
Proof. induction d; cbn [uint_chars]; constructor; auto. Qed.

Lemma uint_chars_inj (d d' : Decimal.uint) :
  uint_chars d = uint_chars d' -> d = d'.
Proof.
  revert d'. induction d; intros [] E; cbn [uint_chars] in E;
    try discriminate; try reflexivity;
    injection E as E; f_equal; auto.
Qed.

Lemma zeros_uint_chars (k : nat) (d : Decimal.uint) :
  repeat 0x30 k ++ uint_chars d = uint_chars (Nat.iter k Decimal.D0 d).
Proof. induction k; [reflexivity|]. cbn. now rewrite IHk. Qed.

Lemma of_uint_zeros (k : nat) (d : Decimal.uint) :
  Nat.of_uint (Nat.iter k Decimal.D0 d) = Nat.of_uint d.
Proof. induction k; [reflexivity|]. exact IHk. Qed.

Lemma format_03d_digits (i : nat) :
  Forall (fun c => is_digit c = true) (format_03d i).
Proof.
  unfold format_03d, format_d. rewrite zeros_uint_chars.
  apply uint_chars_digits.
Qed.

Lemma format_03d_inj (i j : nat) : format_03d i = format_03d j -> i = j.
Proof.
  unfold format_03d, format_d. rewrite !zeros_uint_chars. intros E.
  apply uint_chars_inj in E. apply (f_equal Nat.of_uint) in E.
  now rewrite !of_uint_zeros, !DecimalNat.Unsigned.of_to in E.
Qed.

Lemma digits_before_underscore (a b r r' : str) :
  Forall (fun c => is_digit c = true) a ->
  Forall (fun c => is_digit c = true) b ->
  a ++ u "_" ++ r = b ++ u "_" ++ r' -> a = b.
Proof.
  intros Ha. revert b.
  induction Ha as [|x a Hx _ IH]; intros b Hb E.
  - destruct Hb as [|y b Hy _]; [reflexivity|].
    injection E as <- _. discriminate.
  - destruct Hb as [|y b Hy Hb].
    + injection E as -> _. discriminate.
    + injection E as -> E. f_equal. now apply IH.
Qed.

Lemma separate_file_name_inj (i j : nat) (person person' : str) (f : str) :
  separate_file_name i person = Ok f ->
  separate_file_name j person' = Ok f -> i = j.
Proof.
  rewrite !separate_file_name_split. intros E E'.
  injection E as <-. injection E' as E'.
  apply format_03d_inj.
  symmetry. eapply digits_before_underscore; [| |exact E'];
    apply format_03d_digits.
Qed.

Lemma to_dative_fullname_result_io
  (U : ucd) (fullname : str) (io io' : stdout) :
  fst (to_dative_fullname U fullname io)
  = fst (to_dative_fullname U fullname io').
Proof.
  unfold to_dative_fullname.
  now destruct (inflect_parts U fullname) as [[[[out s] n] p]|].
Qed.

Lemma generate_separate_files_from_spec
  (U : ucd) (names : list str) (i : nat) (io : stdout) :
  exists files lines,
    generate_separate_files_from U i names io = (Ok files, io ++ lines)
    /\ length lines = length names
    /\ Forall2 (fun person file =>
                  fst (to_dative_fullname U person []) = Ok (snd file))
         names files
    /\ Forall (fun file => exists j person,
                   (i <= j)%nat
                   /\ separate_file_name j person = Ok (fst file)) files
    /\ NoDup (map fst files)
    /\ map fst files
       = map (fun k => format_03d (i + k) ++ u "_"
                       ++ match split (nth k names []) with
                          | t :: _ => t
                          | [] => format_d (i + k)
                          end
                       ++ u ".docx")
           (seq 0 (length names)).
Proof.
  revert i io. induction names as [|person names IH]; intros i io.
  - exists [], []. cbn. rewrite app_nil_r.
    repeat split; constructor.
  - cbn [generate_separate_files_from].
    destruct (inflect_parts_fixed U person) as (out & s & n & p & H & _).
    unfold to_dative_fullname at 1. rewrite H.
    rewrite separate_file_name_split.
    destruct (IH (S i) (io ++ [mk_printed out s n p]))
      as (files & lines & -> & Hlen & Hrepls & Hnames & Hnodup & Hmap).
    eexists (_ :: files), (mk_printed out s n p :: lines).
    split; [now rewrite <- app_assoc|].
    split; [cbn [length]; now rewrite Hlen|].
    split.
    { constructor; [|assumption]. cbn [snd].
      unfold to_dative_fullname. now rewrite H. }
    split.
    { constructor.
      - exists i, person. split; [lia|]. cbn [fst].
        apply separate_file_name_split.
      - eapply Forall_impl; [|exact Hnames].
        intros file (j & q & Hj & Hq). exists j, q. split; [lia|assumption]. }
    split.
    { cbn [map fst]. constructor; [|assumption].
      intros Hin. apply in_map_iff in Hin as (file & Efile & Hin).
      rewrite Forall_forall in Hnames.
      destruct (Hnames file Hin) as (j & q & Hj & Hq).
      rewrite Efile in Hq.
      pose proof (separate_file_name_inj i j person q _
                    (separate_file_name_split i person) Hq).
      lia. }
    cbn [map fst length seq nth]. rewrite Nat.add_0_r. f_equal.
    rewrite Hmap, <- seq_shift, map_map.
    apply map_ext. intros k. cbn [nth]. now rewrite Nat.add_succ_r.
Qed.

(** In the world in which every call goes through, the run of
    [generate_separate_files_in] is the run of [generate_separate_files]. *)
Lemma generate_separate_files_loop_world_ok
  (U : ucd) (names : list str) (i : nat) (io : stdout) :
  fst (generate_separate_files_from U i names io)
  = Ok (fst (generate_separate_files_loop world_ok U i names))
  /\ snd (generate_separate_files_loop world_ok U i names) = None.
Proof.
  revert i io. induction names as [|person names IH]; intros i io.
  - now split.
  - cbn [generate_separate_files_from generate_separate_files_loop world_ok
         template_ok replace_ok save_ok print_ok negb].
    destruct (inflect_parts_fixed U person) as (out & s & n & p & H & _).
    unfold to_dative_fullname, to_dative_fullname_in. rewrite H.
    rewrite separate_file_name_split.
    destruct (IH (S i) (io ++ [mk_printed out s n p])) as [E1 E2].
    destruct (generate_separate_files_from U (S i) names _) as [res io2].
    destruct (generate_separate_files_loop world_ok U (S i) names)
      as [files stop].
    cbn [fst snd] in *. subst res stop. now split.
Qed.

Ltac loop_stops :=
  cbn [fst snd length firstn map seq];
  split; [lia|]; split; [reflexivity|]; split; [constructor|];
  split; [split; intros; discriminate|];
  split; intros; discriminate.

Lemma generate_separate_files_loop_spec
  (W : world) (U : ucd) (names : list str) (i : nat) :
  (length (fst (generate_separate_files_loop W U i names))
   <= length names)%nat
  /\ map fst (fst (generate_separate_files_loop W U i names))
     = map (file_name_at i names)
         (seq 0 (length (fst (generate_separate_files_loop W U i names))))
  /\ Forall2 (fun person file =>
                fst (to_dative_fullname U person []) = Ok (snd file))
       (firstn (length (fst (generate_separate_files_loop W U i names)))
          names)
       (fst (generate_separate_files_loop W U i names))
  /\ (snd (generate_separate_files_loop W U i names) = None
      <-> length (fst (generate_separate_files_loop W U i names))
          = length names)
  /\ (forall e,
         snd (generate_separate_files_loop W U i names) <> Some (Builtin e))
  /\ (forall e,
         snd (generate_separate_files_loop W U i names) <> Some (Merge e)).
Proof.
  revert i. induction names as [|person names IH]; intros i.
  - cbn. repeat split; try constructor; try discriminate; lia.
  - cbn [generate_separate_files_loop].
    destruct (template_ok W i); cbn [negb]; [|loop_stops].
    destruct (inflect_parts_fixed U person) as (out & s & n & p & H & _).
    unfold to_dative_fullname_in. rewrite H.
    destruct (print_ok W _); [|loop_stops].
    destruct (replace_ok W i); cbn [negb]; [|loop_stops].
    rewrite separate_file_name_split.
    destruct (save_ok W i _); cbn [negb]; [|loop_stops].
    specialize (IH (S i)).
    destruct (generate_separate_files_loop W U (S i) names) as [files stop].
    cbn [fst snd] in *. destruct IH as (L & M & F & N & B1 & B2).
    split; [cbn [length]; lia|]. split.
    { cbn [map fst length seq]. f_equal.
      - unfold file_name_at. cbn [nth]. now rewrite Nat.add_0_r.
      - rewrite M, <- seq_shift, map_map. apply map_ext. intros j.
        unfold file_name_at. cbn [nth]. now rewrite Nat.add_succ_r. }
    split.
    { cbn [length firstn]. constructor; [|assumption]. cbn [snd].
      unfold to_dative_fullname. now rewrite H. }
    split; [|now split].
    cbn [length]. rewrite N. split; intros E; [now f_equal|now injection E].
Qed.

Lemma file_name_at_inj (i : nat) (names : list str) (j j' : nat) :
  file_name_at i names j = file_name_at i names j' -> j = j'.
Proof.
  unfold file_name_at. intros E.
  apply digits_before_underscore in E; try apply format_03d_digits.
  apply format_03d_inj in E. lia.
Qed.

Lemma NoDup_map_injective {A B : Type} (f : A -> B) (l : list A) :
  (forall x y, f x = f y -> x = y) -> NoDup l -> NoDup (map f l).
Proof.
  intros Hf. induction 1 as [|x l Hx _ IH]; [constructor|].
  cbn [map]. constructor; [|assumption].
  intros Hin. apply in_map_iff in Hin as (y & E & Hy).
  apply Hf in E. now subst y.
Qed.


(** X16. The names under which one run of [generate_separate_files] saves
    its files are pairwise different strings, even when two persons have
    the same name. *)
Theorem generate_separate_files_in_names_differ
  (W : world) (U : ucd) (names : list str) :
  NoDup (map fst (fst (generate_separate_files_in W U names))).
Proof.
  unfold generate_separate_files_in.
  destruct (makedirs_ok W); [|constructor].
  destruct (generate_separate_files_loop_spec W U names 1) as (_ & M & _).
  rewrite M. apply NoDup_map_injective; [|apply seq_NoDup].
  apply file_name_at_inj.
Qed.

Lemma read_names_have_tokens (rows : list (list cell_value))
  (names : list str) :
  read_names_from_excel rows = Ok names ->
  Forall (fun name => split name <> []) names.
Proof.
  unfold read_names_from_excel. intros H.
  pose proof (read_names_loop_spec rows []) as Hs. rewrite H in Hs.
  destruct Hs as [-> _]. cbn [app].
  apply Forall_forall. intros name Hin.
  apply in_map_iff in Hin as (val & <- & Hval).
  apply filter_In in Hval as [_ Hval].
  apply andb_true_iff in Hval as [_ Hval].
  apply stripped_name. intros E. rewrite E in Hval. discriminate.
Qed.

(** X17. For a name read from the spreadsheet neither fall-back is
    taken: the name has a token, so the list [out] of inflected parts that
    [to_dative_fullname] builds is not empty and the function returns
    [" ".join(out)] and not its [else fullname]; and the label of the file
    is the first token of the name, not the index. *)
Theorem names_from_the_sheet_take_the_join
  (U : ucd) (rows : list (list cell_value)) (names : list str)
  (name : str) (i : nat) (io : stdout) :
  read_names_from_excel rows = Ok names ->
  In name names ->
  exists out s n p t ts,
    inflect_parts U name = Ok (out, s, n, p)
    /\ out <> []
    /\ fst (to_dative_fullname U name io) = Ok (join (u " ") out)
    /\ split name = t :: ts
    /\ separate_file_name i name
       = Ok (format_03d i ++ u "_" ++ t ++ u ".docx").
Proof.
  intros Hread Hin.
  pose proof (read_names_have_tokens rows names Hread) as HT.
  rewrite Forall_forall in HT. specialize (HT name Hin).
  destruct (to_dative_fullname_on_tokens U name io HT)
    as (out & s & n & p & Hout & _ & Ho & Hr).
  pose proof (separate_file_name_split i name) as Hf.
  rewrite <- (inflect_parts_delimited U name _ (delimited_self name))
    in Hout.
  destruct (split name) as [|t ts]; [contradiction|].
  now exists out, s, n, p, t, ts.
Qed.

Lemma names_from_the_sheet_take_the_join_witness :
  exists out s n p t ts,
    inflect_parts ucd_plain (u "Шевченко Тетяна") = Ok (out, s, n, p)
    /\ out <> []
    /\ fst (to_dative_fullname ucd_plain (u "Шевченко Тетяна") [])
       = Ok (join (u " ") out)
    /\ split (u "Шевченко Тетяна") = t :: ts
    /\ separate_file_name 7 (u "Шевченко Тетяна")
       = Ok (format_03d 7 ++ u "_" ++ t ++ u ".docx").
Proof.
  apply (names_from_the_sheet_take_the_join ucd_plain
           [[CellStr (u "  Шевченко Тетяна ")]; [CellNone];
            [CellOther true (u "42")]; [CellStr (u "   ")]]
           [u "Шевченко Тетяна"; u "42"]).
  - vm_compute. reflexivity.
  - left. reflexivity.
Defined.

(** ** The order of strings and [sorted] *)

Lemma str_ltb_irrefl (a : str) : str_ltb a a = false.
Proof.
  induction a as [|x a IH]; [reflexivity|].
  cbn [str_ltb]. now rewrite N.ltb_irrefl, N.eqb_refl, IH.
Qed.

Lemma str_ltb_trans (a b c : str) :
  str_ltb a b = true -> str_ltb b c = true -> str_ltb a c = true.
Proof.
  revert b c. induction a as [|x a IH]; intros [|y b] [|z c];
    cbn [str_ltb]; try discriminate; try reflexivity.
  rewrite !orb_true_iff, !andb_true_iff, !N.ltb_lt, !N.eqb_eq.
  intros [H1 | [-> H1]] [H2 | [-> H2]].
  - left. lia.
  - now left.
  - now left.
  - right. split; [reflexivity|]. now apply (IH b).
Qed.

Lemma str_ltb_asym (a b : str) : str_ltb a b = true -> str_ltb b a = false.
Proof.
  intros H. destruct (str_ltb b a) eqn:E; [|reflexivity].
  pose proof (str_ltb_trans a b a H E) as C.
  now rewrite str_ltb_irrefl in C.
Qed.

Lemma str_trichotomy (a b : str) :
  str_ltb a b = false -> str_ltb b a = false -> a = b.
Proof.
  revert b. induction a as [|x a IH]; intros [|y b]; cbn [str_ltb];
    try discriminate; try reflexivity.
  rewrite !orb_false_iff, !andb_false_iff, !N.ltb_ge, !N.eqb_neq.
  intros [H1 H1'] [H2 H2'].
  assert (x = y) by lia. subst y. f_equal. apply IH.
  - destruct H1' as [C | C]; [contradiction|assumption].
  - destruct H2' as [C | C]; [contradiction|assumption].
Qed.

Lemma str_leb_trans (a b c : str) :
  str_leb a b = true -> str_leb b c = true -> str_leb a c = true.
Proof.
  unfold str_leb. rewrite !negb_true_iff. intros H1 H2.
  destruct (str_ltb c a) eqn:E; [|reflexivity].
  destruct (str_ltb a b) eqn:E'.
  - pose proof (str_ltb_trans c a b E E'). congruence.
  - pose proof (str_trichotomy a b E' H1). subst b. congruence.
Qed.

Lemma insert_sorted_perm (x : str) (l : list str) :
  Permutation (insert_sorted x l) (x :: l).
Proof.
  induction l as [|y l IH]; [reflexivity|].
  cbn [insert_sorted]. destruct (str_leb x y); [reflexivity|].
  rewrite IH. apply perm_swap.
Qed.

Lemma sorted_perm (l : list str) : Permutation (sorted l) l.
Proof.
  induction l as [|x l IH]; [reflexivity|].
  cbn [sorted fold_right]. rewrite insert_sorted_perm. now constructor.
Qed.

Lemma insert_sorted_Sorted (x : str) (l : list str) :
  Sorted (fun a b => str_leb a b = true) l ->
  Sorted (fun a b => str_leb a b = true) (insert_sorted x l).
Proof.
  induction 1 as [|y l Hs IH Hd]; [repeat constructor|].
  cbn [insert_sorted]. destruct (str_leb x y) eqn:E.
  - constructor; [now constructor|now constructor].
  - constructor; [assumption|].
    assert (Hyx : str_leb y x = true).
    { unfold str_leb in *. apply negb_false_iff in E.
      now rewrite (str_ltb_asym _ _ E). }
    destruct l as [|z l]; cbn [insert_sorted].
    + now constructor.
    + destruct (str_leb x z); constructor; [assumption|].
      now inversion Hd.
Qed.

Lemma sorted_Sorted (l : list str) :
  Sorted (fun a b => str_leb a b = true) (sorted l).
Proof.
  induction l as [|x l IH]; [constructor|].
  cbn [sorted fold_right]. now apply insert_sorted_Sorted.
Qed.

(** A list in strictly increasing order is what [sorted] makes of any of
    its rearrangements. *)
Lemma sorted_of_permutation (l L : list str) :
  StronglySorted (fun a b => str_ltb a b = true) L ->
  Permutation l L -> sorted l = L.
Proof.
  intros HL Hp.
  assert (HS : StronglySorted (fun a b => str_leb a b = true) (sorted l)).
  { apply Sorted_StronglySorted; [|apply sorted_Sorted].
    intros a b c. apply str_leb_trans. }
  assert (Hperm : Permutation (sorted l) L)
    by (now rewrite sorted_perm).
  clear Hp. revert HS Hperm. generalize (sorted l) as S. clear l.
  induction HL as [|x L HL IH Hx]; intros S HS Hperm.
  - now apply Permutation_sym, Permutation_nil in Hperm.
  - destruct S as [|s S].
    + now apply Permutation_nil in Hperm.
    + inversion HS as [|? ? HS' Hs]; subst.
      assert (s = x).
      { assert (Hin1 : In s (x :: L))
          by (apply (Permutation_in _ Hperm); now left).
        assert (Hin2 : In x (s :: S))
          by (apply (Permutation_in _ (Permutation_sym Hperm)); now left).
        destruct Hin1 as [E | Hin1]; [now symmetry|].
        destruct Hin2 as [E | Hin2]; [assumption|].
        rewrite Forall_forall in Hx, Hs.
        specialize (Hx s Hin1). specialize (Hs x Hin2).
        unfold str_leb in Hs. rewrite Hx in Hs. discriminate. }
      subst s. f_equal. apply IH; [assumption|].
      now apply Permutation_cons_inv in Hperm.
Qed.

Lemma str_ltb_prefix (a b r r' : str) :
  length a = length b -> str_ltb a b = true ->
  str_ltb (a ++ r) (b ++ r') = true.
Proof.
  revert b. induction a as [|x a IH]; intros [|y b] Hlen H;
    try discriminate.
  cbn [str_ltb app] in *. injection Hlen as Hlen.
  apply orb_true_iff in H as [H | H]; [now rewrite H|].
  apply andb_true_iff in H as [H1 H2].
  rewrite H1, (IH b Hlen H2). now rewrite orb_true_r.
Qed.

Lemma str_ltb_common_prefix (p a b : str) :
  str_ltb (p ++ a) (p ++ b) = str_ltb a b.
Proof.
  induction p as [|x p IH]; [reflexivity|].
  cbn [app str_ltb]. now rewrite N.ltb_irrefl, N.eqb_refl, IH.
Qed.

(** ** Merging in the order of the list *)

Lemma format_03d_length (i : nat) :
  (i <= 999)%nat -> length (format_03d i) = 3%nat.
Proof.
  intros H.
  assert (E : forallb (fun k => Nat.eqb (length (format_03d k)) 3)
                (seq 0 1000) = true) by (vm_compute; reflexivity).
  rewrite forallb_forall in E. apply Nat.eqb_eq, E, in_seq. lia.
Qed.

Lemma format_03d_succ_lt (i : nat) :
  (i < 999)%nat -> str_ltb (format_03d i) (format_03d (S i)) = true.
Proof.
  intros H.
  assert (E : forallb (fun k => str_ltb (format_03d k) (format_03d (S k)))
                (seq 0 999) = true) by (vm_compute; reflexivity).
  rewrite forallb_forall in E. apply E, in_seq. lia.
Qed.

Lemma format_03d_lt (i j : nat) :
  (i < j <= 999)%nat -> str_ltb (format_03d i) (format_03d j) = true.
Proof.
  induction j as [|j IH]; [lia|]. intros H.
  destruct (Nat.eq_dec i j) as [-> | Hne].
  - apply format_03d_succ_lt. lia.
  - apply (str_ltb_trans _ (format_03d j)).
    + apply IH. lia.
    + apply format_03d_succ_lt. lia.
Qed.

Lemma do_lower_lower_case_suffix (U : ucd) (before s t : str) :
  Forall (fun c => in_written_blocks c = true /\ block_lower c = c) t ->
  exists x, do_lower U before (s ++ t) = x ++ t.
Proof.
  intros Ht. revert before. induction s as [|a s IH]; intros before.
  - exists []. cbn [app]. revert before.
    induction Ht as [|c t [Hc Hl] _ IHt]; intros before; [reflexivity|].
    cbn [do_lower]. rewrite IHt. unfold lower_ucs4, tolower_full.
    destruct (c =? 0x3A3) eqn:E.
    + apply N.eqb_eq in E. subst c. discriminate.
    + now rewrite Hc, Hl.
  - destruct (IH (a :: before)) as [x Hx].
    exists (lower_ucs4 U before a (s ++ t) ++ x).
    cbn [app do_lower]. now rewrite Hx, app_assoc.
Qed.

Lemma docx_name_is_kept (U : ucd) (s : str) :
  endswith (lower U (s ++ u ".docx")) (u ".docx") = true.
Proof.
  destruct (do_lower_lower_case_suffix U [] s (u ".docx")) as [x Hx].
  - vm_compute. repeat constructor.
  - unfold lower. rewrite Hx. apply endswith_iff. now exists x.
Qed.

Lemma os_path_join_name (in_dir name : str) (c : char) (rest : str) :
  name = c :: rest -> is_digit c = true ->
  os_path_join in_dir name
  = (if py_not in_dir || endswith in_dir (u "/") then in_dir
     else in_dir ++ u "/") ++ name.
Proof.
  intros -> Hc. unfold os_path_join.
  destruct (c =? 0x2F) eqn:E.
  - apply N.eqb_eq in E. subst c. discriminate.
  - destruct (py_not in_dir || endswith in_dir (u "/")); [reflexivity|].
    now rewrite <- app_assoc.
Qed.

Lemma StronglySorted_map_seq (f : nat -> str) (a n : nat) :
  (forall k k', (a <= k < k')%nat -> (k' < a + n)%nat ->
                str_ltb (f k) (f k') = true) ->
  StronglySorted (fun x y => str_ltb x y = true) (map f (seq a n)).
Proof.
  revert a. induction n as [|n IH]; intros a H; [constructor|].
  cbn [seq map]. constructor.
  - apply IH. intros k k' Hk Hk'. apply H; lia.
  - apply Forall_forall. intros y Hy.
    apply in_map_iff in Hy as (k & <- & Hk). apply in_seq in Hk.
    apply H; lia.
Qed.

Lemma filter_all {A : Type} (f : A -> bool) (l : list A) :
  (forall x, In x l -> f x = true) -> filter f l = l.
Proof.
  induction l as [|x l IH]; intros H; [reflexivity|].
  cbn [filter]. rewrite (H x) by now left.
  f_equal. apply IH. intros y Hy. apply H. now right.
Qed.

(** X18. Up to 999 persons, [merge_docx_in_dir] puts the files of
    [generate_separate_files] together in the order of the list of names,
    whatever the names are and in whatever order the directory lists its
    entries: the three-digit index at the head of each file name makes
    [sorted] restore that order. *)
Theorem merge_keeps_the_order_of_the_names
  (U : ucd) (in_dir : str) (names : list str) (io io' : stdout)
  (files : list (str * str)) (listing : list str) :
  generate_separate_files U names io = (Ok files, io') ->
  names <> [] ->
  (length names <= 999)%nat ->
  Permutation listing (map fst files) ->
  merge_docx_in_dir U true in_dir listing
  = inr (map (os_path_join in_dir) (map fst files)).
Proof.
  intros Hgen Hne Hlen Hperm.
  unfold generate_separate_files in Hgen.
  destruct (generate_separate_files_from_spec U names 1 io)
    as (files' & lines & Hgen' & _ & Hrepl & _ & _ & Hmap).
  rewrite Hgen in Hgen'. injection Hgen' as <- _.
  set (label k := match split (nth k names []) with
                  | t :: _ => t
                  | [] => format_d (1 + k)
                  end) in Hmap.
  set (prefix := if py_not in_dir || endswith in_dir (u "/") then in_dir
                 else in_dir ++ u "/").
  assert (Hjoin : forall k, (k < length names)%nat ->
            os_path_join in_dir
              (format_03d (1 + k) ++ u "_" ++ label k ++ u ".docx")
            = prefix ++ format_03d (1 + k) ++ u "_" ++ label k
              ++ u ".docx").
  { intros k Hk.
    pose proof (format_03d_length (1 + k) ltac:(lia)) as Hl.
    pose proof (format_03d_digits (1 + k)) as Hd.
    destruct (format_03d (1 + k)) as [|c rest] eqn:E; [discriminate|].
    inversion Hd; subst.
    now apply (os_path_join_name in_dir _ c
                 (rest ++ u "_" ++ label k ++ u ".docx")). }
  assert (Hsorted : StronglySorted (fun x y => str_ltb x y = true)
                      (map (os_path_join in_dir) (map fst files))).
  { rewrite Hmap, map_map.
    rewrite (map_ext_in _ (fun k => prefix ++ format_03d (1 + k) ++ u "_"
                                    ++ label k ++ u ".docx")).
    - apply StronglySorted_map_seq. intros k k' Hk Hk'.
      rewrite str_ltb_common_prefix. apply str_ltb_prefix.
      + rewrite !format_03d_length; [reflexivity|lia|lia].
      + apply format_03d_lt. lia.
    - intros k Hk. apply in_seq in Hk. apply Hjoin. lia. }
  assert (Hdocx : filter (fun f => endswith (lower U f) (u ".docx")) listing
                  = listing).
  { apply filter_all. intros f Hf.
    apply (Permutation_in _ Hperm) in Hf. rewrite Hmap in Hf.
    apply in_map_iff in Hf as (k & <- & _).
    rewrite !app_assoc. apply docx_name_is_kept. }
  unfold merge_docx_in_dir. rewrite Hdocx.
  rewrite (sorted_of_permutation _ _ Hsorted)
    by now apply Permutation_map.
  destruct files as [|file files].
  - apply Forall2_length in Hrepl. destruct names; [contradiction|].
    discriminate.
  - reflexivity.
Qed.

Lemma merge_keeps_the_order_of_the_names_witness :
  merge_docx_in_dir ucd_plain true (u "out")
    [u "002_Гуров.docx"; u "001_Шевченко.docx"]
  = inr (map (os_path_join (u "out"))
           (map fst [(u "001_Шевченко.docx", u "Шевченку Тетяні");
                     (u "002_Гуров.docx", u "Гурову Денисові")])).
Proof.
  apply (merge_keeps_the_order_of_the_names ucd_plain (u "out")
           [u "Шевченко Тетяна"; u "Гуров Денис"] []
           (snd (generate_separate_files ucd_plain
                   [u "Шевченко Тетяна"; u "Гуров Денис"] []))).
  - vm_compute. reflexivity.
  - discriminate.
  - cbn [length]. lia.
  - cbn [map fst]. apply perm_swap.
Defined.


(** In the world in which every call goes through, the run of
    [merge_docx_in_dir_in] is the run of [merge_docx_in_dir]. *)
Lemma merge_docx_in_dir_in_world_ok
  (U : ucd) (HAS_COMPOSER : bool) (in_dir : str) (entries : list str) :
  merge_docx_in_dir_in world_ok U HAS_COMPOSER in_dir (Some entries)
  = match merge_docx_in_dir U HAS_COMPOSER in_dir entries with
    | inl e => inl (Merge e)
    | inr files => inr files
    end.
Proof.
  unfold merge_docx_in_dir_in, merge_docx_in_dir. cbv zeta.
  destruct (sorted _) as [|f fs]; [reflexivity|].
  destruct HAS_COMPOSER; [|reflexivity].
  replace (forallb (open_ok world_ok) (f :: fs)) with true; [reflexivity|].
  symmetry. apply forallb_forall. reflexivity.
Qed.


(** X20. The bound of 999 is sharp: the file of the 1000th person sorts
    before the file of every person from the 100th to the 999th, whatever
    their names, so that [merge_docx_in_dir] moves it forward. *)
Theorem thousandth_file_sorts_early
  (i : nat) (person person' : str) (f f' : str) :
  (100 <= i <= 999)%nat ->
  separate_file_name 1000 person = Ok f ->
  separate_file_name i person' = Ok f' ->
  str_ltb f f' = true.
Proof.
  intros Hi. rewrite !separate_file_name_split.
  intros E E'. injection E as <-. injection E' as <-.
  destruct (Nat.eq_dec i 100) as [-> | Hne].
  - reflexivity.
  - match goal with
    | |- str_ltb (_ :: _ :: _ :: ?r) (_ ++ ?r') = true =>
      apply (str_ltb_prefix (format_03d 100) (format_03d i) r r')
    end.
    + rewrite (format_03d_length i) by lia. reflexivity.
    + apply format_03d_lt. lia.
Qed.

Lemma thousandth_file_sorts_early_witness :
  str_ltb (u "1000_Шевченко.docx") (u "101_Гуров.docx") = true.
Proof.
  apply (thousandth_file_sorts_early 101 (u "Шевченко Тетяна")
           (u "Гуров Денис")).
  - lia.
  - vm_compute. reflexivity.
  - vm_compute. reflexivity.
Defined.
